(** * Verification of rain's peer-connection core

    Shallow embedding of
    - [src/internal/peermanager/dialer/dialer.go]: [Dialer.Run] (bounded dialing),
      [newTransfer], [transfer.Downloaded], [transfer.Left], [transfer.Run],
      [transfer.connect], [prepareFiles], [openOrAllocate];
    - [src/internal/peermanager/acceptor/handler/handler.go]: [Handler.Run],
      [getSKey], [checkInfoHash].

    Collaborator packages of the repository that are not part of the sources
    here ([worker], [peerids], [bitfield], [btconn], [connection], the [os]
    layer) are modelled from the spec; their definitions say so. *)

From Stdlib Require Import ZArith Lia List Bool Ascii String.
From stdpp Require Import base gmap sets strings list.
Import ListNotations.
Open Scope Z_scope.

(* ================================================================= *)
(** ** Outbound Dialer ([Dialer.Run]) *)

Module Dialer.

(** [const maxDial = 40]; the limiter is [make(chan struct{}, maxDial)]. *)
Definition maxDial : nat := 40.

(** Where the goroutine running [Run] is:
    - [AtOuter]: blocked in the outer [select] (send on [d.limiter] / [<-stopC]);
    - [AtInner]: blocked in the inner [select] ([<-d.peerList.Get()] / [<-stopC]);
    - [Stopping]: inside [d.workers.Stop()], waiting for the workers;
    - [Returned]: [Run] has returned. *)
Inductive pc := AtOuter | AtInner | Stopping | Returned.

(** Global state of one execution of [Run] and of the workers it spawned.
    [limiter] is the number of tokens buffered in [d.limiter];
    [running] counts workers whose handler is still running,
    [finishing] workers whose handler returned but whose on-finish callback
    [func() { <-d.limiter }] has not yet run.  [acquired], [released] and
    [spawned] are ghost counters of sends on the limiter, receives from it,
    and calls of [StartWithOnFinishHandler]. *)
Record state := mkState {
  limiter : nat;
  running : nat;
  finishing : nat;
  loc : pc;
  stopClosed : bool;
  acquired : nat;
  released : nat;
  spawned : nat
}.

Definition init : state := mkState 0 0 0 AtOuter false 0 0 0.

(** One step of the system.  A Go [select] whose several cases are ready picks
    any of them, so each case is its own rule.

    Modelled from the spec: the [worker.Workers] pool (package [internal/worker],
    not among the sources).  [StartWithOnFinishHandler h f] runs [h] in its own
    goroutine and calls [f] once [h] has terminated; [Stop] tells all workers
    to stop and waits until every worker and its on-finish callback are done. *)
Inductive step : state -> state -> Prop :=
  (** [case d.limiter <- struct{}{}]: a buffered send, possible while the
      buffer holds fewer than [maxDial] tokens. *)
  | S_acquire l r f sc a rl sp :
      (l < maxDial)%nat ->
      step (mkState l r f AtOuter sc a rl sp) (mkState (S l) r f AtInner sc (S a) rl sp)
  (** outer [case <-stopC]: [d.workers.Stop()] *)
  | S_outer_stop l r f a rl sp :
      step (mkState l r f AtOuter true a rl sp) (mkState l r f Stopping true a rl sp)
  (** [case addr := <-d.peerList.Get()]: [StartWithOnFinishHandler], loop *)
  | S_dial l r f sc a rl sp :
      step (mkState l r f AtInner sc a rl sp) (mkState l (S r) f AtOuter sc a rl (S sp))
  (** inner [case <-stopC]: [d.workers.Stop()] *)
  | S_inner_stop l r f a rl sp :
      step (mkState l r f AtInner true a rl sp) (mkState l r f Stopping true a rl sp)
  (** [Stop] returns once all workers and callbacks are done; then [return] *)
  | S_stopped l sc a rl sp :
      step (mkState l 0 0 Stopping sc a rl sp) (mkState l 0 0 Returned sc a rl sp)
  (** a worker's dial attempt terminates (success or failure) *)
  | S_worker_done l r f p sc a rl sp :
      step (mkState l (S r) f p sc a rl sp) (mkState l r (S f) p sc a rl sp)
  (** its on-finish callback [<-d.limiter]: a receive, possible on a non-empty buffer *)
  | S_on_finish l r f p sc a rl sp :
      step (mkState (S l) r (S f) p sc a rl sp) (mkState l r f p sc a (S rl) sp)
  (** the owner closes [stopC] *)
  | S_close_stop l r f p a rl sp :
      step (mkState l r f p false a rl sp) (mkState l r f p true a rl sp).

(** The states reachable from [s]. *)
Inductive steps (s : state) : state -> Prop :=
  | steps_refl : steps s s
  | steps_next s' s'' : steps s s' -> step s' s'' -> steps s s''.

Definition reachable (s : state) : Prop := steps init s.

(** The invariant of [Run] and its workers: the limiter buffer is the ghost
    balance of sends and receives; every token is held either by a worker
    (running or about to release) or, after the outer send, by [Run] itself. *)
Definition inv (s : state) : Prop :=
  (limiter s <= maxDial)%nat /\
  acquired s = (released s + limiter s)%nat /\
  spawned s = (released s + running s + finishing s)%nat /\
  (loc s = AtOuter -> limiter s = (running s + finishing s)%nat) /\
  (loc s = AtInner -> limiter s = S (running s + finishing s)) /\
  (running s + finishing s <= limiter s <= S (running s + finishing s))%nat /\
  (loc s = Returned -> running s = 0%nat /\ finishing s = 0%nat).

(** A run that acquired a slot and spawned one worker. *)
Definition one_worker : state := mkState 1 1 0 AtOuter false 1 0 1.

(** The state after: acquire a slot in the outer [select], the stop channel
    is closed, the inner [select] takes [<-stopC], [Stop] and [return]. *)
Definition leaked : state := mkState 1 0 0 Returned true 1 0 0.


(** The phase after a stop was observed, [k] being the number of slots
    [Run] itself still holds: [Stop] is waiting for the workers, or [Run]
    has returned, and every other token of the limiter is held by a worker. *)
Definition after_stop (k : nat) (s : state) : Prop :=
  (loc s = Stopping \/ loc s = Returned) /\ stopClosed s = true /\
  limiter s = (k + running s + finishing s)%nat /\
  (loc s = Returned -> running s = 0%nat /\ finishing s = 0%nat).

(** One worker spawned, its dial attempt over and its on-finish callback not
    yet run. *)
Definition one_done : state := mkState 1 0 1 AtOuter false 1 0 1.

(** That worker has released its slot, and the stop channel is closed;
    [Run] is at its outer [select]. *)
Definition released_one : state := mkState 0 0 0 AtOuter true 1 1 1.

(** From [released_one]: the outer [select] takes the stop; [Stop], [return]. *)
Definition stopped_outer : state := mkState 0 0 0 Returned true 1 1 1.

(** From [released_one]: a second slot is acquired and [Run] waits in the
    inner [select]. *)
Definition second_slot : state := mkState 1 0 0 AtInner true 2 1 1.

(** From [second_slot]: the inner [select] takes the stop; [Stop], [return]. *)
Definition stopped_inner : state := mkState 1 0 0 Returned true 2 1 1.

(** All 40 slots held, [Run] back at its outer [select]. *)
Definition full : state := mkState 40 40 0 AtOuter false 40 0 40.

End Dialer.

(* ================================================================= *)
(** ** Capability bitset ([internal/bitfield]) *)

(** Modelled from the spec: the [bitfield] package (not among the sources).
    A bitfield of [len] bits over a byte slice; bit [i] is the bit
    [7 - i mod 8] (most significant first) of byte [i / 8], the peer-wire
    convention under which bit 61 is reserved byte 7, mask [0x04]. *)
Module Bitfield.

Record t := mk { len : nat; bytes : list Z }.

(** [bitfield.NewBytes(b, n)] wraps the slice [b]. *)
Definition NewBytes (b : list Z) (n : nat) : t := mk n b.

(** [bitfield.New(n)]: all bits unset. *)
Definition New (n : nat) : t := mk n (repeat 0 ((n + 7) / 8)%nat).

Definition mask (i : nat) : Z := Z.shiftl 1 (Z.of_nat (7 - i mod 8)%nat).

Definition byte_of (b : t) (i : nat) : Z := default 0 (bytes b !! (i / 8)%nat).

Definition Test (b : t) (i : nat) : bool := Z.testbit (byte_of b i) (Z.of_nat (7 - i mod 8)%nat).

Definition Set_ (b : t) (i : nat) : t :=
  mk (len b) (<[(i / 8)%nat := Z.lor (byte_of b i) (mask i)]> (bytes b)).

(** [a.And(b)]: byte-wise AND. *)
Definition And (a b : t) : t := mk (len a) (zip_with Z.land (bytes a) (bytes b)).

(** [All()]: every one of the [len] bits is set. *)
Definition All (b : t) : bool := forallb (Test b) (seq 0 (len b)).

End Bitfield.

(* ================================================================= *)
(** ** Inbound Connection Handler ([Handler.Run]) *)

Module Handler.

(** 20-byte identifiers, as lists of byte values. *)
Definition PeerID := list Z.

Record Handler := mkHandler {
  peerID : PeerID;
  sKeyHash : list Z;
  infoHash : list Z
}.

(** [h.getSKey]: the secret key hidden behind an obfuscated key hash. *)
Definition getSKey (h : Handler) (skh : list Z) : option (list Z) :=
  if decide (skh = sKeyHash h) then Some (infoHash h) else None.

(** [h.checkInfoHash] *)
Definition checkInfoHash (h : Handler) (ih : list Z) : bool :=
  bool_decide (ih = infoHash h).

(** What the remote side of an accepted socket sends: either the transport
    closes mid-handshake, or it completes a hello, encrypted (obfuscated, keyed
    by a secret-key hash) or plain (keyed by the info hash itself), carrying its
    8 reserved extension bytes and its peer id. *)
Inductive Remote :=
  | RemoteClosed
  | RemoteHello (encrypted : bool) (key : list Z) (ext : list Z) (pid : PeerID).

Inductive Cipher := CipherPlain | CipherRC4.

Inductive HandshakeError :=
  | ErrTransport | ErrUnknownSKey | ErrPlainRefused | ErrInfoHash.

(** Modelled from the spec: [btconn.Accept] (package [internal/btconn], not
    among the sources), the responder side of the handshake: it fails with a
    handshake error when the transport closes, when the content identifier
    is unknown ([getSKey] / [checkInfoHash]), or when [forceEncryption] is set
    and the remote side uses plain framing. *)
Definition Accept (getSKey : list Z -> option (list Z)) (forceEncryption : bool)
    (checkInfoHash : list Z -> bool) (ourExtensions : list Z) (ourID : PeerID)
    (r : Remote) : HandshakeError + (Cipher * list Z * PeerID) :=
  match r with
  | RemoteClosed => inl ErrTransport
  | RemoteHello true skh ext pid =>
      match getSKey skh with
      | Some _ => inr (CipherRC4, ext, pid)
      | None => inl ErrUnknownSKey
      end
  | RemoteHello false ih ext pid =>
      if forceEncryption then inl ErrPlainRefused
      else if checkInfoHash ih then inr (CipherPlain, ext, pid)
      else inl ErrInfoHash
  end.

(** Modelled from the spec: the Peer Identity Registry [peerids.PeerIDs]
    (package [internal/peermanager/peerids], not among the sources):
    atomic add-if-absent and idempotent remove. *)
Definition Add (reg : gset PeerID) (pid : PeerID) : bool * gset PeerID :=
  if decide (pid ∈ reg) then (false, reg) else (true, {[pid]} ∪ reg).

Definition Remove (reg : gset PeerID) (pid : PeerID) : gset PeerID := reg ∖ {[pid]}.

(** How the peer session [p.Run(stopC)] ends: it returns, or it panics (in
    which case deferred calls still run). *)
Inductive SessionEnd := SessionReturns | SessionPanics.

(** Observable effects of [Handler.Run]. *)
Inductive Event :=
  | LogError
  | LogInfo
  | ConnClose
  | PeerIDsAdd (pid : PeerID) (ok : bool)
  | PeerRun (pid : PeerID) (extensions : Bitfield.t)
  | PeerIDsRemove (pid : PeerID).

(** [ourExtensions := [8]byte{}; ourbf := bitfield.NewBytes(ourExtensions[:], 64);
    ourbf.Set(61)]: [ourbf] aliases the array, so the [ourExtensions] handed to
    [btconn.Accept] afterwards has bit 61 set too. *)
Definition ourbf : Bitfield.t := Bitfield.Set_ (Bitfield.NewBytes (repeat 0 8) 64) 61.
Definition ourExtensions : list Z := Bitfield.bytes ourbf.

(** [Handler.Run]: the events it performs, the registry afterwards, and
    whether it ends by a panic of the session. *)
Definition Run (h : Handler) (reg : gset PeerID) (r : Remote) (e : SessionEnd)
    : list Event * gset PeerID * bool :=
  let encryptionForceIncoming := false in
  match Accept (getSKey h) encryptionForceIncoming (checkInfoHash h)
               ourExtensions (peerID h) r with
  | inl _ => ([LogError; ConnClose], reg, false)
  | inr (cipher, peerExtensions, pid) =>
      let '(ok, reg1) := Add reg pid in
      if negb ok then ([LogInfo; PeerIDsAdd pid false; ConnClose], reg1, false)
      else
        (* defer h.peerIDs.Remove(peerID) *)
        let peerbf := Bitfield.NewBytes peerExtensions 64 in
        let extensions := Bitfield.And ourbf peerbf in
        let panicked := match e with SessionPanics => true | SessionReturns => false end in
        ([LogInfo; PeerIDsAdd pid true; PeerRun pid extensions; PeerIDsRemove pid],
         Remove reg1 pid, panicked)
  end.

Definition h0 : Handler := mkHandler [1] [2] [3].
Definition plainHello : Remote := RemoteHello false [3] (repeat 0 8) [9].

(** The remote mask of the spec's example: bits 61 and 5. *)
Definition remote61_5 : list Z :=
  Bitfield.bytes (Bitfield.Set_ (Bitfield.Set_ (Bitfield.NewBytes (repeat 0 8) 64) 61) 5).

End Handler.

(* ================================================================= *)
(** ** Transfer Coordinator ([transfer.Run], [transfer.connect]) *)

Module Transfer.

(** [tracker.Started] / [tracker.Completed] *)
Inductive TrackerEvent := Started | Completed.

Definition Addr := Z.
Definition PeerRef := Z.

(** A [tracker.AnnounceResponse]: an error, or the counts and the peer list. *)
Inductive AnnounceResponse :=
  | AnnounceError (msg : string)
  | AnnounceOK (seeders leechers : Z) (peers : list Addr).

Inductive LogLine := LogErr (msg : string) | LogAnnounce (seeders leechers : Z).

(** The state [transfer.Run] works on.  [announcers] lists the event of each
    [tracker.AnnouncePeriodically] goroutine started; [piecePeers] is
    [piece.peers] per piece; [sentPeers] the peer lists sent on
    [downloader.peersC]; [haveNotify] whether a wake-up is pending on
    [downloader.haveNotifyC]. *)
Record TState := mkT {
  bitField : Bitfield.t;
  announcers : list TrackerEvent;
  piecePeers : list (list PeerRef);
  sentPeers : list (list Addr);
  haveNotify : bool;
  logs : list LogLine
}.

(** What the [for]/[select] of [Run] receives, and the concurrent change of
    the shared bitfield by the downloader ([Verified i]), and the downloader
    draining its wake-up channel ([Drained]). *)
Inductive Input :=
  | FromAnnounceC (r : AnnounceResponse)
  | FromHaveC (piece : nat) (peer : PeerRef)
  | Verified (i : nat)
  | Drained.

(** Start of [Run]: the initial announce event is chosen from [t.bitField.All()].
    (Registration in the process-wide tables and the start of the downloader
    and uploader goroutines do not touch this state.) *)
Definition start (bf : Bitfield.t) (npieces : nat) : TState :=
  let ev := if Bitfield.All bf then Completed else Started in
  mkT bf [ev] (repeat [] npieces) [] false [].

(** Modelled from the spec: [downloader.haveNotifyC] is a single-slot wake-up
    signal; the non-blocking send [select { case haveNotifyC <- struct{}{}: default: }]
    leaves one wake-up pending however often it is tried. *)
Definition notifyHave (pending : bool) : bool := true.

(** One iteration of the [for { select { ... } }] loop. *)
Definition loopStep (t : TState) (i : Input) : TState :=
  match i with
  | FromAnnounceC (AnnounceError m) =>
      mkT (bitField t) (announcers t) (piecePeers t) (sentPeers t) (haveNotify t)
          (logs t ++ [LogErr m])
  | FromAnnounceC (AnnounceOK se le ps) =>
      mkT (bitField t) (announcers t) (piecePeers t) (sentPeers t ++ [ps]) (haveNotify t)
          (logs t ++ [LogAnnounce se le])
  | FromHaveC k p =>
      mkT (bitField t) (announcers t)
          (alter (fun ps => ps ++ [p]) k (piecePeers t))
          (sentPeers t) (notifyHave (haveNotify t)) (logs t)
  | Verified k =>
      mkT (Bitfield.Set_ (bitField t) k) (announcers t) (piecePeers t) (sentPeers t)
          (haveNotify t) (logs t)
  | Drained =>
      mkT (bitField t) (announcers t) (piecePeers t) (sentPeers t) false (logs t)
  end.

Definition runLoop (t : TState) (ins : list Input) : TState := fold_left loopStep ins t.

(** Errors of [connection.Dial]. *)
Inductive DialError := ErrOwnConnection | ErrHandshake | ErrConnect.

(** The other end of an outbound dial. *)
Inductive DialRemote :=
  | Unreachable
  | HandshakeFails
  | RemotePeer (pid : list Z) (ext : list Z).

Inductive ConnEvent :=
  | DialConnClose
  | LogDebug (e : DialError)
  | LogError (e : DialError)
  | LogConnected
  | LogExtensions (ext : list Z)
  | Serve
  | ConnClose.

(** Modelled from the spec: [connection.Dial] (package [internal/connection],
    not among the sources): the initiator handshake.  A connection that fails
    the handshake, or whose remote peer id is our own (self-connection), is
    closed inside [Dial], which returns the error. *)
Definition Dial (remote : DialRemote) (enableEncryption forceEncryption : bool)
    (ourExt infoHash ourID : list Z) : list ConnEvent * (DialError + list Z) :=
  match remote with
  | Unreachable => ([], inl ErrConnect)
  | HandshakeFails => ([DialConnClose], inl ErrHandshake)
  | RemotePeer pid ext =>
      if decide (pid = ourID) then ([DialConnClose], inl ErrOwnConnection)
      else ([], inr ext)
  end.

Record Config := mkConfig { DisableOutgoing : bool; ForceOutgoing : bool }.

Definition DialError_eqb (a b : DialError) : bool :=
  match a, b with
  | ErrOwnConnection, ErrOwnConnection | ErrHandshake, ErrHandshake
  | ErrConnect, ErrConnect => true
  | _, _ => false
  end.

(** [transfer.connect]: the events of one outbound attempt. *)
Definition connect (cfg : Config) (infoHash peerID : list Z) (remote : DialRemote)
    : list ConnEvent :=
  let '(evs, res) := Dial remote (negb (DisableOutgoing cfg)) (ForceOutgoing cfg)
                          (repeat 0 8) infoHash peerID in
  match res with
  | inl err =>
      if DialError_eqb err ErrOwnConnection then evs ++ [LogDebug err]
      else evs ++ [LogError err]
  | inr ext =>
      (* defer conn.Close() *)
      evs ++ [LogConnected; LogExtensions ext; Serve; ConnClose]
  end.

(** [transfer.Downloaded]: [for i := uint32(0); i < t.bitField.Len(); i++]
    summing [int64(t.pieces[i].length)] over the set bits, from bit [i] on for
    [n] more bits.  [pieceLengths] are the pieces' lengths; indexing past them
    is Go's index-out-of-range panic, here [None]. *)
Fixpoint downloadedFrom (bf : Bitfield.t) (pieceLengths : list Z) (i n : nat) (sum : Z)
    : option Z :=
  match n with
  | O => Some sum
  | S n' =>
      if Bitfield.Test bf i then
        match pieceLengths !! i with
        | Some l => downloadedFrom bf pieceLengths (S i) n' (sum + l)
        | None => None
        end
      else downloadedFrom bf pieceLengths (S i) n' sum
  end.

Definition Downloaded (bf : Bitfield.t) (pieceLengths : list Z) : option Z :=
  downloadedFrom bf pieceLengths 0 (Bitfield.len bf) 0.

(** [transfer.Left]: [t.torrent.Info.TotalLength - t.Downloaded()] *)
Definition Left (totalLength : Z) (bf : Bitfield.t) (pieceLengths : list Z) : option Z :=
  match Downloaded bf pieceLengths with
  | Some d => Some (totalLength - d)
  | None => None
  end.

(** Two-piece bitfields, fresh and complete. *)
Definition bf_two : Bitfield.t := Bitfield.New 2.

Definition bf_full : Bitfield.t := Bitfield.Set_ (Bitfield.Set_ (Bitfield.New 2) 0) 1.

End Transfer.

(* ================================================================= *)
(** ** File Preparer ([prepareFiles], [openOrAllocate]) *)

Module Files.

Inductive FileOp := OpOpen | OpStat | OpTruncate | OpSync | OpMkdirAll.

Inductive FsEvent :=
  | EvCreate (path : string)
  | EvTruncate (path : string) (size : Z)
  | EvSync (path : string)
  | EvClose (path : string)
  | EvMkdirAll (dir : string).

(** The file system as [openOrAllocate] sees it: the size of each existing
    regular file, which system calls fail on which path (I/O errors,
    permissions), and the calls made so far. *)
Record FS := mkFS {
  files : gmap string Z;
  fails : FileOp -> string -> bool;
  trace : list FsEvent
}.

Inductive Error :=
  | ErrIO (op : FileOp) (path : string)
  (** [fmt.Errorf("%s expected to be %d bytes but it is %d bytes", ...)] *)
  | ErrSizeMismatch (path : string) (length size : Z).

(** A state and error monad over [FS]. *)
Definition M (A : Type) : Type := FS -> (Error + A) * FS.

Definition ret {A} (a : A) : M A := fun s => (inr a, s).
Definition throw {A} (e : Error) : M A := fun s => (inl e, s).
Definition bind {A B} (m : M A) (k : A -> M B) : M B :=
  fun s => match m s with
           | (inl e, s') => (inl e, s')
           | (inr a, s') => k a s'
           end.

Notation "x <- m ;; k" := (bind m (fun x => k))
  (at level 100, m at next level, k at level 200, right associativity).

Definition setFS (fs : gmap string Z) (ev : FsEvent) : M unit :=
  fun s => (inr tt, mkFS fs (fails s) (trace s ++ [ev])).

Definition failing (op : FileOp) (p : string) : M bool := fun s => (inr (fails s op p), s).
Definition getFiles : M (gmap string Z) := fun s => (inr (files s), s).

(** [os.OpenFile(path, os.O_RDWR|os.O_CREATE, 0640)]: opens, creating an
    empty file when absent; the handle is the path. *)
Definition OpenFile (p : string) : M string :=
  b <- failing OpOpen p;;
  if b then throw (ErrIO OpOpen p) else
  fs <- getFiles;;
  match fs !! p with
  | Some _ => ret p
  | None => _ <- setFS (<[p := 0]> fs) (EvCreate p);; ret p
  end.

(** [f.Stat()].Size() *)
Definition Stat (f : string) : M Z :=
  b <- failing OpStat f;;
  if b then throw (ErrIO OpStat f) else
  fs <- getFiles;; ret (default 0 (fs !! f)).

(** [f.Truncate(n)]; a negative size is refused by the system ([EINVAL]). *)
Definition Truncate (f : string) (n : Z) : M unit :=
  b <- failing OpTruncate f;;
  if b || bool_decide (n < 0) then throw (ErrIO OpTruncate f) else
  fs <- getFiles;; setFS (<[f := n]> fs) (EvTruncate f n).

(** [f.Sync()] *)
Definition Sync (f : string) : M unit :=
  b <- failing OpSync f;;
  if b then throw (ErrIO OpSync f) else
  fs <- getFiles;; setFS fs (EvSync f).

(** [f.Close()], its error ignored. *)
Definition Close (f : string) : M unit := fs <- getFiles;; setFS fs (EvClose f).

(** Paths on Unix, as the [path/filepath] package handles them. *)

(** [strings.Split(p, "/")]; [cur] is the current element, reversed. *)
Fixpoint splitAux (cur : list ascii) (p : string) : list string :=
  match p with
  | EmptyString => [string_of_list_ascii (rev cur)]
  | String c rest =>
      if Ascii.eqb c "/"%char then string_of_list_ascii (rev cur) :: splitAux [] rest
      else splitAux (c :: cur) rest
  end.

Definition splitSlash (p : string) : list string := splitAux [] p.

(** One element of the path in [filepath.Clean]; [out] holds the elements
    kept so far, last first.  An empty or [.] element goes; [..] removes the
    element before it, unless that is a [..] itself or there is none, in
    which case it stays (relative path) or goes (rooted path). *)
Definition cleanElem (rooted : bool) (out : list string) (e : string) : list string :=
  if String.eqb e "" || String.eqb e "." then out
  else if String.eqb e ".." then
    match out with
    | x :: out' => if String.eqb x ".." then e :: out else out'
    | [] => if rooted then [] else [e]
    end
  else e :: out.

(** [filepath.Clean(p)]: the shortest lexically equivalent path, ["."] when
    nothing is left. *)
Definition Clean (p : string) : string :=
  let rooted := String.prefix "/" p in
  let body := String.concat "/" (rev (fold_left (cleanElem rooted) (splitSlash p) [])) in
  if rooted then ("/" ++ body)%string
  else if String.eqb body "" then "." else body.

(** [filepath.Dir(p)]: [Clean] of [p] up to and including its last
    separator; ["."] when it has none. *)
Definition Dir (p : string) : string :=
  match rev (splitSlash p) with
  | _ :: (_ :: _) as dirs => Clean (String.concat "/" (rev dirs) ++ "/")
  | _ => Clean ""
  end.

(** [filepath.Join(elem...)]: the elements from the first non-empty one on,
    joined by ["/"] and cleaned; [""] when all are empty. *)
Fixpoint join (elem : list string) : string :=
  match elem with
  | [] => ""
  | e :: rest => if String.eqb e "" then join rest else Clean (String.concat "/" (e :: rest))
  end.

(** [d] is the clean path [f] or lies below it. *)
Definition under (f d : string) : bool :=
  String.eqb f d || String.prefix (f ++ "/") d.

(** [os.MkdirAll(dir, ...)]: fails when [dir] or one of its ancestors is a
    regular file ([ENOTDIR]); directories themselves are not tracked. *)
Definition MkdirAll (d : string) : M unit :=
  b <- failing OpMkdirAll d;;
  fs <- getFiles;;
  if b || existsb (fun fz => under fz.1 d) (map_to_list fs) then throw (ErrIO OpMkdirAll d) else
  setFS fs (EvMkdirAll d).

(** [defer func() { if err != nil { f.Close() } }()] *)
Definition closeOnError {A} (f : string) (m : M A) : M A :=
  fun s => match m s with
           | (inl e, s') => (inl e, snd (Close f s'))
           | ok => ok
           end.

(** [openOrAllocate(path, length) (f, exists, err)] *)
Definition openOrAllocate (path : string) (length : Z) : M (string * bool) :=
  f <- OpenFile path;;
  closeOnError f (
    size <- Stat f;;
    if bool_decide (size = 0) && bool_decide (length <> 0) then
      _ <- Truncate f length;;
      _ <- Sync f;;
      ret (f, false)
    else if bool_decide (size <> length) then
      throw (ErrSizeMismatch path length size)
    else ret (f, true)).

Record FileInfo := mkFileInfo { fLength : Z; fPath : list string }.

Record Info := mkInfo {
  Name : string;
  MultiFile : bool;
  Length : Z;
  InfoFiles : list FileInfo
}.

(** The [for i, f := range info.Files] loop of [prepareFiles], with its
    [checkHash] accumulator. *)
Fixpoint prepareMulti (where_ name : string) (fis : list FileInfo) (checkHash : bool)
    : M (list string * bool) :=
  match fis with
  | [] => ret ([], checkHash)
  | fi :: rest =>
      let parts := where_ :: name :: fPath fi in
      let path := join parts in
      _ <- MkdirAll (Dir path);;
      r <- openOrAllocate path (fLength fi);;
      rest' <- prepareMulti where_ name rest (checkHash || snd r);;
      ret (fst r :: fst rest', snd rest')
  end.

(** [prepareFiles(info, where) (files, checkHash, err)] *)
Definition prepareFiles (info : Info) (where_ : string) : M (list string * bool) :=
  if negb (MultiFile info) then
    r <- openOrAllocate (join [where_; Name info]) (Length info);;
    ret ([fst r], snd r)
  else prepareMulti where_ (Name info) (InfoFiles info) false.

Definition noFailures : FileOp -> string -> bool := fun _ _ => false.

(** A destination ["d"] already holding an empty file ["d/a"], and a
    single-file torrent ["a"] of 1000 bytes. *)
Definition fsEmptyA : FS := mkFS {["d/a" := 0]} noFailures [].
Definition infoA : Info := mkInfo "a" false 1000 [].

Definition fs900 : FS := mkFS {["d/a" := 900]} noFailures [].

Definition fsNone : FS := mkFS ∅ noFailures [].

(** A two-file torrent ["t"] whose second file ["d/t/b"] (4 bytes) exists
    with 9 bytes. *)
Definition infoTB : Info := mkInfo "t" true 0 [mkFileInfo 3 ["a"]; mkFileInfo 4 ["b"]].
Definition fsB9 : FS := mkFS {["d/t/b" := 9]} noFailures [].


(** The path [prepareFiles] gives a file of a multi-file torrent. *)
Definition fpath (where_ name : string) (fi : FileInfo) : string :=
  join (where_ :: name :: fPath fi).

(** [prepareFiles info where] opens the file [p] of declared length
    [length] in the single-file layout. *)
Definition single_file (info : Info) (where_ p : string) (length : Z) : Prop :=
  MultiFile info = false /\ join [where_; Name info] = p /\ Length info = length.

(** [prepareFiles info where], started on [s0] in the multi-file layout,
    comes to open the declared file [p] of length [length] in state [s]: the
    files [pre] before it were prepared, giving the paths [ps] and the
    [checkHash] flag [ch], and [os.MkdirAll] of its directory succeeded;
    [rest] are the files after it. *)
Definition multi_file_at (info : Info) (where_ : string) (s0 : FS)
    (pre rest : list FileInfo) (ps : list string) (ch : bool)
    (p : string) (length : Z) (s : FS) : Prop :=
  MultiFile info = true /\
  exists fi s1, InfoFiles info = pre ++ fi :: rest /\
    fpath where_ (Name info) fi = p /\ fLength fi = length /\
    prepareMulti where_ (Name info) pre false s0 = (inr (ps, ch), s1) /\
    MkdirAll (Dir p) s1 = (inr tt, s).

(** A plain path element: a name that is not empty, [.] or [..] and holds no
    separator. *)
Definition plain (e : string) : bool :=
  negb (String.eqb e "" || String.eqb e "." || String.eqb e ".." ||
        existsb (fun c => Ascii.eqb c "/"%char) (list_ascii_of_string e)).

(** [d/a] already at its full 1000 bytes; a file system whose [Stat]
    fails; a two-file torrent ["t"]. *)
Definition fsA1000 : FS := mkFS {["d/a" := 1000]} noFailures [].
Definition fsFailStat : FS := mkFS {["d/a" := 5]} (fun op _ => match op with OpStat => true | _ => false end) [].

Definition infoAB : Info :=
  mkInfo "t" true 0 [mkFileInfo 3 ["a"]; mkFileInfo 4 ["sub"; "b"]].

End Files.

(* ================================================================= *)
(** ** Transfer creation ([Rain.newTransfer]) *)

Module TransferInit.
Import Files.

Inductive TransferError :=
  | TrackerErr (msg : string)      (** from [tracker.New] *)
  | FileErr (e : Error)            (** from [prepareFiles] *)
  | HashErr (msg : string).        (** from [p.hashCheck()] *)

(** The [for _, p := range pieces] hash-check loop: [hashCheck p] is the
    result [(ok, err)] of [p.hashCheck()], an error or whether the piece's
    data on disk matches its digest. *)
Fixpoint hashLoop (hashCheck : nat -> string + bool) (ps : list nat) (bf : Bitfield.t)
    : string + Bitfield.t :=
  match ps with
  | [] => inr bf
  | p :: rest =>
      match hashCheck p with
      | inl e => inl e
      | inr ok => hashLoop hashCheck rest (if ok then Bitfield.Set_ bf p else bf)
      end
  end.

(** What [newTransfer] builds that the proofs look at. *)
Record Created := mkCreated {
  cFiles : list string;
  cBitField : Bitfield.t;
  cLogName : string
}.

(** [name := tor.Info.Name; if len(name) > 8 { name = name[:8] }] *)
Definition logName (name : string) : string :=
  "download " ++ (if bool_decide (8 < String.length name)%nat then substring 0 8 name else name).

(** [r.newTransfer(tor, where)].  [trackerNew] is the error of
    [tracker.New(tor.Announce, r)], if any; [npieces] is [len(pieces)] for
    [pieces := newPieces(tor.Info, files)]. *)
Definition newTransfer (trackerNew : option string) (info : Info) (where_ : string)
    (npieces : nat) (hashCheck : nat -> string + bool) (s : FS)
    : (TransferError + Created) * FS :=
  match trackerNew with
  | Some e => (inl (TrackerErr e), s)
  | None =>
      match prepareFiles info where_ s with
      | (inl e, s') => (inl (FileErr e), s')
      | (inr (files, checkHash), s') =>
          let bitField := Bitfield.New npieces in
          if checkHash then
            match hashLoop hashCheck (seq 0 npieces) bitField with
            | inl e => (inl (HashErr e), s')
            | inr bf => (inr (mkCreated files bf (logName (Name info))), s')
            end
          else (inr (mkCreated files bitField (logName (Name info))), s')
      end
  end.

(** Piece hash checks: every even piece verifies; reading piece 2 fails. *)
Definition checkEven (p : nat) : string + bool := inr (Nat.even p).

Definition checkFailsAt2 (p : nat) : string + bool :=
  if decide (p = 2%nat) then inl "read error"%string else inr true.

End TransferInit.

(* ================================================================= *)
(** * Proofs *)

Module DialerProofs.
Import Dialer.

Lemma inv_init : inv init.
Proof. unfold inv, init; simpl; repeat split; intros; try discriminate; lia. Qed.

Lemma inv_step s s' : inv s -> step s s' -> inv s'.
Proof.
  unfold inv; intros (H1 & H2 & H3 & H4 & H5 & H6 & H7) Hst.
  inversion Hst; subst; simpl in *;
    repeat match goal with p : pc |- _ => destruct p end;
    repeat split; intros; try discriminate;
    repeat match goal with
           | H : ?a = ?a -> _ |- _ => specialize (H eq_refl)
           | H : ?a = ?b -> _ |- _ => clear H
           end;
    unfold maxDial in *; try lia.
Qed.

Lemma inv_steps s s' : inv s -> steps s s' -> inv s'.
Proof. intros Hi Hs; induction Hs; eauto using inv_step. Qed.

Lemma reachable_inv s : reachable s -> inv s.
Proof. intros H; eapply inv_steps; [apply inv_init | exact H]. Qed.

Lemma steps_trans s1 s2 s3 : steps s1 s2 -> steps s2 s3 -> steps s1 s3.
Proof. intros H12 H23; induction H23; eauto using steps_next. Qed.

Lemma after_stop_step k s s' : after_stop k s -> step s s' -> after_stop k s'.
Proof.
  unfold after_stop; intros (Hl & Hc & Hlim & Hr) Hst.
  inversion Hst; subst; simpl in *;
    try (destruct Hl as [Hl|Hl]; discriminate); try discriminate.
  - split; [right; reflexivity|]; split; [exact Hc|]; split; [lia|auto].
  - split; [exact Hl|]; split; [exact Hc|]; split; [lia|].
    intros E; destruct (Hr E); discriminate.
  - split; [exact Hl|]; split; [exact Hc|]; split; [lia|].
    intros E; destruct (Hr E); lia.
Qed.

Lemma after_stop_steps k s s' : after_stop k s -> steps s s' -> after_stop k s'.
Proof. intros Ha Hs; induction Hs; eauto using after_stop_step. Qed.

Lemma returned_stuck k s s' : after_stop k s -> loc s = Returned -> ~ step s s'.
Proof.
  unfold after_stop; intros (_ & Hc & _ & Hr) Hl Hst; destruct (Hr Hl) as [Hr0 Hf0].
  inversion Hst; subst; simpl in *; discriminate.
Qed.

Lemma returned_final k s s' : after_stop k s -> loc s = Returned -> steps s s' -> s' = s.
Proof.
  intros Ha Hl Hs; induction Hs as [|s1 s2 Hs IH Hst]; [reflexivity|].
  subst; exfalso; exact (returned_stuck k s s2 Ha Hl Hst).
Qed.

Lemma outer_stop_after s s' :
  inv s -> loc s = AtOuter -> step s s' -> loc s' = Stopping -> after_stop 0 s'.
Proof.
  unfold inv, after_stop; intros (_ & _ & _ & H4 & _) Hl Hst Hl'.
  inversion Hst; subst; simpl in *; try congruence.
  specialize (H4 eq_refl).
  split; [left; reflexivity|]; split; [reflexivity|]; split; [lia|discriminate].
Qed.

Lemma inner_stop_after s s' :
  inv s -> loc s = AtInner -> step s s' -> loc s' = Stopping -> after_stop 1 s'.
Proof.
  unfold inv, after_stop; intros (_ & _ & _ & _ & H5 & _) Hl Hst Hl'.
  inversion Hst; subst; simpl in *; try congruence.
  specialize (H5 eq_refl).
  split; [left; reflexivity|]; split; [reflexivity|]; split; [lia|discriminate].
Qed.

End DialerProofs.

Module DialerClaims.
Import Dialer DialerProofs.

(** C1: in every reachable state of [Dialer.Run] the number of limiter slots
    acquired and not yet released lies in [[0, 40]], and the dial workers
    alive (still dialing, or done but not yet released) never exceed it, so
    at most 40 dial workers run at once. *)
Theorem dial_slots_bounded (s : state) (H : reachable s) :
  (released s <= acquired s)%nat /\
  (acquired s - released s <= maxDial)%nat /\
  (running s + finishing s <= acquired s - released s)%nat /\
  (running s <= 40)%nat.
Proof.
  destruct (reachable_inv s H) as (H1 & H2 & H3 & H4 & H5 & H6 & H7).
  unfold maxDial in *; lia.
Qed.

Lemma reachable_one_worker : reachable one_worker.
Proof.
  eapply steps_next; [eapply steps_next; [apply steps_refl |] |].
  - apply S_acquire; unfold maxDial; lia.
  - apply S_dial.
Qed.

Lemma dial_slots_bounded_witness :
  reachable one_worker /\ (acquired one_worker - released one_worker <= maxDial)%nat.
Proof.
  split; [apply reachable_one_worker |].
  apply (dial_slots_bounded one_worker reachable_one_worker).
Defined.

Lemma leaked_final s' : steps leaked s' -> s' = leaked.
Proof.
  induction 1 as [|s1 s2 Hs IH Hst]; [reflexivity|]; subst; inversion Hst.
Qed.

Lemma reachable_leaked : reachable leaked.
Proof.
  unfold reachable, leaked.
  eapply steps_next; [eapply steps_next; [eapply steps_next;
    [eapply steps_next; [apply steps_refl|]|]|]|].
  - apply S_acquire; unfold maxDial; lia.
  - apply S_close_stop.
  - apply S_inner_stop.
  - apply S_stopped.
Qed.

(** C2 (counterexample): a stop observed in the inner [select], after the
    slot of that iteration was acquired, returns from [Run] with that slot
    still held, and no later step ever releases it. *)
Lemma dial_slot_leak_on_inner_stop :
  reachable leaked /\ acquired leaked = 1%nat /\ released leaked = 0%nat /\
  (forall s', steps leaked s' -> released s' = 0%nat).
Proof.
  split; [apply reachable_leaked|split; [reflexivity | split; [reflexivity|]]].
  intros s' Hs; rewrite (leaked_final s' Hs); reflexivity.
Qed.

(** C2 (amended): every spawned worker is released at most once and only by
    its own on-finish callback: the spawned workers are those released plus
    those still dialing or finishing, and a step that releases a slot is the
    callback of a worker whose dial attempt has ended.  When [Run] has
    returned, every spawned worker has ended and released its slot.  A stop
    taken in the outer [select] leads to a return with no slot held; a stop
    taken in the inner [select], after the slot of that iteration was
    acquired, leads to a return with exactly that one slot held, and it is
    never released afterwards. *)
Theorem dial_slots_released (s : state) (H : reachable s) :
  spawned s = (released s + running s + finishing s)%nat /\
  (forall s', step s s' -> released s' <> released s ->
     released s' = S (released s) /\ finishing s = S (finishing s') /\
     running s' = running s /\ spawned s' = spawned s) /\
  (loc s = Returned ->
     running s = 0%nat /\ finishing s = 0%nat /\ released s = spawned s) /\
  (forall s' s'', loc s = AtOuter -> step s s' -> loc s' = Stopping ->
     steps s' s'' -> loc s'' = Returned -> acquired s'' = released s'') /\
  (forall s' s'', loc s = AtInner -> step s s' -> loc s' = Stopping ->
     steps s' s'' -> loc s'' = Returned ->
     acquired s'' = S (released s'') /\
     forall s3, steps s'' s3 -> released s3 = released s'').
Proof.
  pose proof (reachable_inv s H) as Hinv.
  destruct Hinv as (H1 & H2 & H3 & H4 & H5 & H6 & H7) eqn:Hi; clear Hi.
  assert (Hreach : forall s' s'', step s s' -> steps s' s'' -> reachable s'').
  { intros s' s'' Hst Hs; eapply steps_trans; [eapply steps_next; [exact H | exact Hst] | exact Hs]. }
  split; [lia|]; split; [|split; [|split]].
  - intros s' Hst Hne; inversion Hst; subst; simpl in *; try (exfalso; apply Hne; reflexivity).
    repeat split; lia.
  - intros Hr; destruct (H7 Hr); lia.
  - intros s' s'' Hl Hst Hl' Hs Hr''.
    pose proof (after_stop_steps 0 s' s'' (outer_stop_after s s' Hinv Hl Hst Hl') Hs) as (_ & _ & Hlim & Hz).
    destruct (Hz Hr'') as [Hr0 Hf0].
    destruct (reachable_inv s'' (Hreach s' s'' Hst Hs)) as (_ & Ha & _); lia.
  - intros s' s'' Hl Hst Hl' Hs Hr''.
    pose proof (after_stop_steps 1 s' s'' (inner_stop_after s s' Hinv Hl Hst Hl') Hs) as Haf.
    destruct Haf as (Hloc & Hc & Hlim & Hz) eqn:E; clear E.
    destruct (Hz Hr'') as [Hr0 Hf0].
    destruct (reachable_inv s'' (Hreach s' s'' Hst Hs)) as (_ & Ha & _).
    split; [lia|].
    intros s3 Hs3; rewrite (returned_final 1 s'' s3 Haf Hr'' Hs3); reflexivity.
Qed.

Lemma reachable_one_done : reachable one_done.
Proof.
  unfold reachable, one_done.
  eapply steps_next; [eapply steps_next; [eapply steps_next; [apply steps_refl|]|]|].
  - apply S_acquire; unfold maxDial; lia.
  - apply S_dial.
  - apply S_worker_done.
Qed.

Lemma reachable_released_one : reachable released_one.
Proof.
  eapply steps_next; [eapply steps_next; [apply reachable_one_done|]|].
  - apply S_on_finish.
  - apply S_close_stop.
Qed.

Lemma reachable_second_slot : reachable second_slot.
Proof.
  eapply steps_next; [apply reachable_released_one|].
  apply S_acquire; unfold maxDial; lia.
Qed.

Lemma dial_slots_released_witness :
  released (mkState 0 0 0 AtOuter false 1 1 1) = S (released one_done) /\
  acquired stopped_outer = released stopped_outer /\ released stopped_outer = 1%nat /\
  acquired stopped_inner = S (released stopped_inner) /\
  released stopped_inner = spawned stopped_inner.
Proof.
  split; [|split; [|split; [reflexivity|split]]].
  - destruct (dial_slots_released one_done reachable_one_done) as (_ & Hrel & _).
    destruct (Hrel (mkState 0 0 0 AtOuter false 1 1 1)) as [Hr _];
      [apply S_on_finish | discriminate | exact Hr].
  - destruct (dial_slots_released released_one reachable_released_one) as (_ & _ & _ & Hout & _).
    apply (Hout (mkState 0 0 0 Stopping true 1 1 1) stopped_outer eq_refl).
    + apply S_outer_stop.
    + reflexivity.
    + eapply steps_next; [apply steps_refl | apply S_stopped].
    + reflexivity.
  - destruct (dial_slots_released second_slot reachable_second_slot) as (_ & _ & _ & _ & Hin).
    apply (Hin (mkState 1 0 0 Stopping true 2 1 1) stopped_inner eq_refl).
    + apply S_inner_stop.
    + reflexivity.
    + eapply steps_next; [apply steps_refl | apply S_stopped].
    + reflexivity.
  - destruct (dial_slots_released stopped_inner) as (_ & _ & Hret & _).
    + eapply steps_next; [eapply steps_next; [apply reachable_second_slot|]|].
      * apply S_inner_stop.
      * apply S_stopped.
    + apply Hret; reflexivity.
Defined.

End DialerClaims.

Module BitfieldProofs.
Import Bitfield.

Lemma Test_And (a b : t) (i : nat) :
  (i / 8 < length (bytes a))%nat -> (i / 8 < length (bytes b))%nat ->
  Test (And a b) i = Test a i && Test b i.
Proof.
  intros Ha Hb; unfold Test, byte_of, And; cbn [bytes].
  rewrite lookup_zip_with.
  destruct (lookup_lt_is_Some_2 (bytes a) _ Ha) as [x Hx].
  destruct (lookup_lt_is_Some_2 (bytes b) _ Hb) as [y Hy].
  rewrite Hx; cbn [mbind option_bind]; rewrite Hy; cbn; apply Z.land_spec.
Qed.

End BitfieldProofs.

Module HandlerClaims.
Import Handler.

Lemma Remove_Add_fresh (reg : gset PeerID) (pid : PeerID) :
  pid ∉ reg -> Remove ({[pid]} ∪ reg) pid = reg.
Proof. intros H; unfold Remove; set_solver. Qed.

Lemma Run_accepted h reg r e c pext pid :
  Accept (getSKey h) false (checkInfoHash h) ourExtensions (peerID h) r = inr (c, pext, pid) ->
  Run h reg r e =
    (let '(ok, reg1) := Add reg pid in
     if negb ok then ([LogInfo; PeerIDsAdd pid false; ConnClose], reg1, false)
     else ([LogInfo; PeerIDsAdd pid true;
            PeerRun pid (Bitfield.And ourbf (Bitfield.NewBytes pext 64)); PeerIDsRemove pid],
           Remove reg1 pid,
           match e with SessionPanics => true | SessionReturns => false end)).
Proof. intros Hacc; unfold Run; rewrite Hacc; reflexivity. Qed.

(** C3: after a successful handshake, a duplicate peer id ([Add] returns
    false) makes [Handler.Run] close the socket and return, with no peer
    session and no [Remove]; a fresh one ([Add] returns true) runs the session
    and then calls [Remove] for that id exactly once, whether the session
    returns or panics, leaving the registry as it found it. *)
Theorem handler_registry_discipline (h : Handler) (reg : gset PeerID) (r : Remote)
    (e : SessionEnd) (c : Cipher) (pext : list Z) (pid : PeerID)
    (Hacc : Accept (getSKey h) false (checkInfoHash h) ourExtensions (peerID h) r
            = inr (c, pext, pid)) :
  (pid ∈ reg ->
     (Run h reg r e).1.1 = [LogInfo; PeerIDsAdd pid false; ConnClose] /\
     (Run h reg r e).1.2 = reg) /\
  (pid ∉ reg ->
     (Run h reg r e).1.1 =
       [LogInfo; PeerIDsAdd pid true;
        PeerRun pid (Bitfield.And ourbf (Bitfield.NewBytes pext 64)); PeerIDsRemove pid] /\
     (Run h reg r e).1.2 = reg).
Proof.
  rewrite (Run_accepted h reg r e c pext pid Hacc); unfold Add.
  split; intros Hin.
  - rewrite decide_True by exact Hin; split; reflexivity.
  - rewrite decide_False by exact Hin; simpl; split; [reflexivity|].
    apply Remove_Add_fresh; exact Hin.
Qed.

Lemma handler_registry_discipline_witness :
  Accept (getSKey h0) false (checkInfoHash h0) ourExtensions (peerID h0) plainHello
    = inr (CipherPlain, repeat 0 8, [9]) /\
  (Run h0 ∅ plainHello SessionPanics).1.2 = ∅.
Proof.
  assert (Hacc : Accept (getSKey h0) false (checkInfoHash h0) ourExtensions (peerID h0) plainHello
    = inr (CipherPlain, repeat 0 8, [9])) by reflexivity.
  split; [exact Hacc|].
  apply (handler_registry_discipline h0 ∅ plainHello SessionPanics CipherPlain
           (repeat 0 8) [9] Hacc).
  set_solver.
Defined.

Lemma ourbf_length : length (Bitfield.bytes ourbf) = 8%nat.
Proof. reflexivity. Qed.

(** C4: after a successful handshake with a fresh peer, the extension mask
    given to the peer session is the byte-wise AND of our 8 reserved bytes
    and the remote's, so each of its 64 bits is set exactly when both sides
    set it. *)
Theorem effective_extensions_and (h : Handler) (reg : gset PeerID) (r : Remote)
    (e : SessionEnd) (c : Cipher) (pext : list Z) (pid : PeerID)
    (Hacc : Accept (getSKey h) false (checkInfoHash h) ourExtensions (peerID h) r
            = inr (c, pext, pid))
    (Hfresh : pid ∉ reg) (Hlen : length pext = 8%nat) :
  exists ext,
    In (PeerRun pid ext) (Run h reg r e).1.1 /\
    Bitfield.bytes ext = zip_with Z.land ourExtensions pext /\
    (forall i, (i < 64)%nat ->
       Bitfield.Test ext i = Bitfield.Test ourbf i && Bitfield.Test (Bitfield.NewBytes pext 64) i).
Proof.
  exists (Bitfield.And ourbf (Bitfield.NewBytes pext 64)).
  rewrite (Run_accepted h reg r e c pext pid Hacc); unfold Add.
  rewrite decide_False by exact Hfresh; cbn [negb fst snd].
  split; [right; right; left; reflexivity|].
  split; [reflexivity|].
  intros i Hi.
  assert (Hd : (i / 8 < 8)%nat) by (apply Nat.Div0.div_lt_upper_bound; lia).
  apply BitfieldProofs.Test_And;
    [rewrite ourbf_length | cbn [Bitfield.bytes Bitfield.NewBytes]; rewrite Hlen]; exact Hd.
Qed.

Lemma effective_extensions_and_witness :
  exists ext,
    In (PeerRun [9] ext) (Run h0 ∅ (RemoteHello false [3] remote61_5 [9]) SessionReturns).1.1 /\
    Bitfield.bytes ext = zip_with Z.land ourExtensions remote61_5.
Proof.
  destruct (effective_extensions_and h0 ∅ (RemoteHello false [3] remote61_5 [9])
              SessionReturns CipherPlain remote61_5 [9]) as (ext & H1 & H2 & _).
  - reflexivity.
  - set_solver.
  - reflexivity.
  - exists ext; split; assumption.
Defined.

(** The example of the spec: local [{61}] and remote [{61, 5}] give [{61}]. *)
Lemma effective_extensions_example :
  filter (Bitfield.Test (Bitfield.And ourbf (Bitfield.NewBytes remote61_5 64))) (seq 0 64)
    = [61%nat].
Proof. vm_compute; reflexivity. Qed.

(** C5 (code defect): [Handler.Run] hard-codes [encryptionForceIncoming := false]
    ("TODO get this from config"), so no handler ever refuses plain framing:
    a plain-text hello with the served info hash is accepted and, for a fresh
    peer id, a peer session is run. *)
Theorem plain_hello_always_accepted (h : Handler) (reg : gset PeerID) (pext : list Z)
    (pid : PeerID) (e : SessionEnd) (Hfresh : pid ∉ reg) :
  Accept (getSKey h) true (checkInfoHash h) ourExtensions (peerID h)
         (RemoteHello false (infoHash h) pext pid) = inl ErrPlainRefused /\
  (Run h reg (RemoteHello false (infoHash h) pext pid) e).1.1 =
    [LogInfo; PeerIDsAdd pid true;
     PeerRun pid (Bitfield.And ourbf (Bitfield.NewBytes pext 64)); PeerIDsRemove pid].
Proof.
  split; [reflexivity|].
  assert (Hacc : Accept (getSKey h) false (checkInfoHash h) ourExtensions (peerID h)
                   (RemoteHello false (infoHash h) pext pid) = inr (CipherPlain, pext, pid)).
  { simpl; unfold checkInfoHash; rewrite bool_decide_eq_true_2 by reflexivity; reflexivity. }
  rewrite (Run_accepted h reg _ e CipherPlain pext pid Hacc); unfold Add.
  rewrite decide_False by exact Hfresh; reflexivity.
Qed.

Lemma plain_hello_always_accepted_witness :
  ([9] ∉ (∅ : gset PeerID)) /\
  (Run h0 ∅ (RemoteHello false (infoHash h0) (repeat 0 8) [9]) SessionReturns).1.1 =
    [LogInfo; PeerIDsAdd [9] true;
     PeerRun [9] (Bitfield.And ourbf (Bitfield.NewBytes (repeat 0 8) 64)); PeerIDsRemove [9]].
Proof.
  assert (Hf : [9] ∉ (∅ : gset PeerID)) by set_solver.
  split; [exact Hf|].
  apply (plain_hello_always_accepted h0 ∅ (repeat 0 8) [9] SessionReturns Hf).
Defined.

End HandlerClaims.

Module TransferClaims.
Import Transfer.

Lemma loopStep_announcers (t : TState) (i : Input) :
  announcers (loopStep t i) = announcers t.
Proof. destruct i as [[]| | |]; reflexivity. Qed.

Lemma runLoop_announcers (t : TState) (ins : list Input) :
  announcers (runLoop t ins) = announcers t.
Proof.
  revert t; induction ins as [|i ins IH]; intros t; [reflexivity|].
  unfold runLoop; simpl; fold (runLoop (loopStep t i) ins).
  rewrite IH; apply loopStep_announcers.
Qed.

(** C6: [transfer.Run] starts exactly one announce loop, with event
    [Completed] when every bit of the bitfield is set at start and [Started]
    otherwise; no later iteration of the run loop (announce responses, have
    notifications, pieces verified meanwhile, wake-ups drained) starts
    another or changes that choice. *)
Theorem initial_announce_event (bf : Bitfield.t) (npieces : nat) (ins : list Input) :
  announcers (runLoop (start bf npieces) ins)
    = [if Bitfield.All bf then Completed else Started].
Proof. rewrite runLoop_announcers; reflexivity. Qed.

(** C7: an outbound attempt that reaches our own peer id is closed inside
    [connection.Dial]; [connect] then only logs it at debug level and returns:
    no error-level log, no peer session. *)
Theorem self_connection_silent (cfg : Config) (infoHash peerID ext : list Z) :
  connect cfg infoHash peerID (RemotePeer peerID ext)
    = [DialConnClose; LogDebug ErrOwnConnection] /\
  (forall e, ~ In (LogError e) (connect cfg infoHash peerID (RemotePeer peerID ext))) /\
  ~ In Serve (connect cfg infoHash peerID (RemotePeer peerID ext)).
Proof.
  assert (Hc : connect cfg infoHash peerID (RemotePeer peerID ext)
               = [DialConnClose; LogDebug ErrOwnConnection]).
  { unfold connect, Dial; rewrite decide_True by reflexivity; reflexivity. }
  rewrite Hc; split; [reflexivity|]; split.
  - intros e [H|[H|[]]]; discriminate.
  - intros [H|[H|[]]]; discriminate.
Qed.

End TransferClaims.

Module FilesProofs.
Import Files.

Lemma bind_inr {A B} (m : M A) (k : A -> M B) (s1 s2 : FS) (a : A) :
  m s1 = (inr a, s2) -> bind m k s1 = k a s2.
Proof. unfold bind; intros ->; reflexivity. Qed.

Lemma OpenFile_ok (s : FS) (p : string) :
  fails s OpOpen p = false ->
  exists s', OpenFile p s = (inr p, s') /\
    files s' !! p = Some (default 0 (files s !! p)) /\
    fails s' = fails s /\
    trace s' = trace s ++ (match files s !! p with None => [EvCreate p] | Some _ => [] end).
Proof.
  intros Ho; unfold OpenFile, bind, failing, getFiles, setFS, ret; rewrite Ho.
  destruct (files s !! p) as [z|] eqn:Hp.
  - exists s; simpl; rewrite ?Hp;
    repeat split; rewrite ?Hp, ?app_nil_r; reflexivity.
  - exists (mkFS (<[p := 0]> (files s)) (fails s) (trace s ++ [EvCreate p])); simpl; split; [reflexivity|]; simpl.
    split; [rewrite lookup_insert_eq; reflexivity|]; split; reflexivity.
Qed.

Lemma Stat_ok (s : FS) (f : string) :
  fails s OpStat f = false -> Stat f s = (inr (default 0 (files s !! f)), s).
Proof. intros Hs; unfold Stat, bind, failing, getFiles, ret; rewrite Hs; reflexivity. Qed.

(** [openOrAllocate] once the file is open: [Stat] and the size test. *)
Lemma openOrAllocate_open (s s' : FS) (p : string) (length : Z) :
  OpenFile p s = (inr p, s') ->
  openOrAllocate p length s =
    closeOnError p (
      size <- Stat p;;
      if bool_decide (size = 0) && bool_decide (length <> 0) then
        _ <- Truncate p length;; _ <- Sync p;; ret (p, false)
      else if bool_decide (size <> length) then
        throw (ErrSizeMismatch p length size)
      else ret (p, true)) s'.
Proof. intros Ho; unfold openOrAllocate, bind at 1; rewrite Ho; reflexivity. Qed.

(** A file whose size after opening is [size], with [size <> 0] or
    [length = 0]: the size test alone decides. *)
Lemma openOrAllocate_sized (s : FS) (p : string) (length size : Z) :
  fails s OpOpen p = false -> fails s OpStat p = false ->
  default 0 (files s !! p) = size ->
  (size <> 0 \/ length = 0) ->
  fst (openOrAllocate p length s) =
    if bool_decide (size <> length) then inl (ErrSizeMismatch p length size)
    else inr (p, true).
Proof.
  intros Ho Hs Hsz Hc.
  destruct (OpenFile_ok s p Ho) as (s' & Hop & Hf & Hfl & _).
  rewrite (openOrAllocate_open s s' p length Hop).
  unfold closeOnError, bind at 1.
  rewrite Stat_ok by (rewrite Hfl; exact Hs).
  rewrite Hf; simpl; rewrite Hsz.
  assert (Hb : bool_decide (size = 0) && bool_decide (length <> 0) = false).
  { destruct Hc as [Hc|Hc].
    - rewrite bool_decide_eq_false_2 by exact Hc; reflexivity.
    - rewrite andb_false_iff; right; apply bool_decide_eq_false_2; lia. }
  rewrite Hb.
  destruct (bool_decide (size <> length)); reflexivity.
Qed.

(** An empty (or absent) file and a positive declared length: truncated to
    that length, flushed, reported as not existing. *)
Lemma openOrAllocate_empty (s : FS) (p : string) (length : Z) :
  (forall op, fails s op p = false) ->
  default 0 (files s !! p) = 0 -> 0 < length ->
  exists s',
    openOrAllocate p length s = (inr (p, false), s') /\
    files s' !! p = Some length /\
    trace s' = trace s ++ (match files s !! p with None => [EvCreate p] | Some _ => [] end)
                        ++ [EvTruncate p length; EvSync p].
Proof.
  intros Hf Hsz Hl.
  destruct (OpenFile_ok s p (Hf OpOpen)) as (s' & Hop & Hfs & Hfl & Htr).
  rewrite (openOrAllocate_open s s' p length Hop).
  unfold closeOnError, bind at 1.
  rewrite Stat_ok by (rewrite Hfl; apply Hf).
  rewrite Hfs; simpl default; rewrite Hsz.
  rewrite bool_decide_eq_true_2 by reflexivity.
  rewrite bool_decide_eq_true_2 by lia; simpl andb.
  unfold Truncate, Sync, bind, failing, getFiles, setFS, ret; simpl.
  rewrite Hfl, (Hf OpTruncate).
  rewrite bool_decide_eq_false_2 by lia; simpl.
  rewrite ?Hfl, (Hf OpSync); simpl.
  eexists; split; [reflexivity|]; simpl; split.
  - rewrite lookup_insert_eq; reflexivity.
  - rewrite Htr, <- !app_assoc; reflexivity.
Qed.

(** [prepareFiles] on a single-file layout is [openOrAllocate] on
    [where/name]. *)
Lemma prepareFiles_single (info : Info) (where_ : string) (s : FS) :
  MultiFile info = false ->
  fst (prepareFiles info where_ s) =
    match fst (openOrAllocate (join [where_; Name info]) (Length info) s) with
    | inl e => inl e
    | inr r => inr ([fst r], snd r)
    end.
Proof.
  intros Hm; unfold prepareFiles; rewrite Hm; simpl; unfold bind.
  destruct (openOrAllocate _ _ s) as [[e|r] s']; reflexivity.
Qed.

(** In the multi-file loop, once a file reported [exists], [checkHash] stays
    set. *)
Lemma prepareMulti_checkHash (where_ name : string) (fis : list FileInfo) (s : FS)
    (fsr : list string) :
  fst (prepareMulti where_ name fis true s) = inr (fsr, false) -> False.
Proof.
  revert s fsr; induction fis as [|fi rest IH]; intros s fsr H; simpl in H.
  - discriminate.
  - unfold bind in H.
    destruct (MkdirAll _ s) as [[e|u] s1]; [discriminate|].
    destruct (openOrAllocate _ _ s1) as [[e|r] s2]; [discriminate|].
    simpl in H.
    destruct (prepareMulti where_ name rest true s2) as [[e|rr] s3] eqn:Hr; [discriminate|].
    simpl in H; injection H as _ Hb.
    apply (IH s2 (fst rr)); rewrite Hr; simpl; rewrite <- Hb; destruct rr; reflexivity.
Qed.

(** The multi-file loop over [pre ++ l] is the loop over [pre], then over
    [l] with the flag reached. *)
Lemma prepareMulti_app (where_ name : string) (pre l : list FileInfo) :
  forall ch s, prepareMulti where_ name (pre ++ l) ch s =
    match prepareMulti where_ name pre ch s with
    | (inl e, s1) => (inl e, s1)
    | (inr (ps, ch1), s1) =>
        match prepareMulti where_ name l ch1 s1 with
        | (inl e, s2) => (inl e, s2)
        | (inr (qs, ch2), s2) => (inr (ps ++ qs, ch2), s2)
        end
    end.
Proof.
  induction pre as [|fi pre IH]; intros ch s.
  - cbn [app prepareMulti]; unfold ret.
    destruct (prepareMulti where_ name l ch s) as [[e|[qs ch2]] s2]; reflexivity.
  - cbn [app prepareMulti]; unfold bind, ret.
    destruct (MkdirAll _ s) as [[e|[]] s1]; [reflexivity|].
    destruct (openOrAllocate _ _ s1) as [[e|r] s2]; [reflexivity|].
    rewrite IH.
    destruct (prepareMulti where_ name pre _ s2) as [[e|[ps ch1]] s3]; [reflexivity|].
    cbn [fst snd].
    destruct (prepareMulti where_ name l ch1 s3) as [[e|[qs ch2]] s4]; reflexivity.
Qed.

(** How [prepareFiles] goes on once, in the multi-file layout, the file [p]
    has been opened with result [o]. *)
Lemma prepareFiles_multi_at (info : Info) (where_ : string) (s0 : FS)
    (pre rest : list FileInfo) (ps : list string) (ch : bool)
    (p : string) (length : Z) (s : FS) :
  multi_file_at info where_ s0 pre rest ps ch p length s ->
  prepareFiles info where_ s0 =
    match openOrAllocate p length s with
    | (inl e, s') => (inl e, s')
    | (inr (f, ex), s') =>
        (r <- prepareMulti where_ (Name info) rest (ch || ex);; ret (ps ++ f :: fst r, snd r)) s'
    end.
Proof.
  intros (Hm & fi & s1 & Hfis & Hp & Hl & Hpre & Hmk).
  unfold prepareFiles; rewrite Hm; cbn [negb]; rewrite Hfis, prepareMulti_app, Hpre.
  cbn [prepareMulti]; unfold bind at 1; fold (fpath where_ (Name info) fi); rewrite Hp, Hmk, Hl.
  unfold bind, ret.
  destruct (openOrAllocate p length s) as [[e|[f ex]] s']; [reflexivity|]; cbn [fst snd].
  destruct (prepareMulti where_ (Name info) rest (ch || ex) s') as [[e|[qs c]] s'']; reflexivity.
Qed.

(** An existing file whose size is its declared length: accepted as is. *)
Lemma openOrAllocate_exact (s : FS) (p : string) (length : Z) :
  fails s OpOpen p = false -> fails s OpStat p = false -> files s !! p = Some length ->
  openOrAllocate p length s = (inr (p, true), s).
Proof.
  intros Ho Hs Hf.
  assert (Hop : OpenFile p s = (inr p, s)).
  { unfold OpenFile, bind, failing, getFiles, ret; rewrite Ho, Hf; reflexivity. }
  unfold openOrAllocate; rewrite (bind_inr _ _ _ _ _ Hop).
  unfold closeOnError; rewrite (bind_inr _ _ _ _ _ (Stat_ok s p Hs)), Hf; cbn [default].
  destruct (decide (length = 0)) as [->|Hn].
  - reflexivity.
  - rewrite (bool_decide_eq_false_2 (length = 0)) by exact Hn; cbn [andb].
    rewrite bool_decide_eq_false_2 by (intros H; apply H; reflexivity); reflexivity.
Qed.

(** An existing file of nonzero size other than its declared length: the
    size-mismatch error, after closing the file. *)
Lemma openOrAllocate_mismatch (s : FS) (p : string) (length size : Z) :
  fails s OpOpen p = false -> fails s OpStat p = false -> files s !! p = Some size ->
  size <> 0 -> size <> length ->
  openOrAllocate p length s = (inl (ErrSizeMismatch p length size), snd (Close p s)).
Proof.
  intros Ho Hs Hf Hz Hne.
  assert (Hop : OpenFile p s = (inr p, s)).
  { unfold OpenFile, bind, failing, getFiles, ret; rewrite Ho, Hf; reflexivity. }
  unfold openOrAllocate; rewrite (bind_inr _ _ _ _ _ Hop).
  unfold closeOnError; rewrite (bind_inr _ _ _ _ _ (Stat_ok s p Hs)), Hf; cbn [default].
  rewrite (bool_decide_eq_false_2 (size = 0)) by exact Hz; cbn [andb].
  rewrite bool_decide_eq_true_2 by exact Hne; reflexivity.
Qed.

(** An existing empty file and a positive declared length: truncated to it
    and synced, reported as not existing. *)
Lemma openOrAllocate_existing_empty (s : FS) (p : string) (length : Z) :
  fails s OpOpen p = false -> fails s OpStat p = false ->
  fails s OpTruncate p = false -> fails s OpSync p = false ->
  files s !! p = Some 0 -> 0 < length ->
  openOrAllocate p length s =
    (inr (p, false),
     mkFS (<[p := length]> (files s)) (fails s) (trace s ++ [EvTruncate p length; EvSync p])).
Proof.
  intros Ho Hs Ht Hy Hf Hl.
  assert (Hop : OpenFile p s = (inr p, s)).
  { unfold OpenFile, bind, failing, getFiles, ret; rewrite Ho, Hf; reflexivity. }
  unfold openOrAllocate; rewrite (bind_inr _ _ _ _ _ Hop).
  unfold closeOnError; rewrite (bind_inr _ _ _ _ _ (Stat_ok s p Hs)), Hf; cbn [default].
  rewrite (bool_decide_eq_true_2 (0 = 0)) by reflexivity.
  rewrite (bool_decide_eq_true_2 (length <> 0)) by lia; cbn [andb].
  set (s2 := mkFS (<[p := length]> (files s)) (fails s) (trace s ++ [EvTruncate p length])).
  assert (Htr : Truncate p length s = (inr tt, s2)).
  { unfold Truncate, bind, failing, getFiles, setFS.
    rewrite Ht, (bool_decide_eq_false_2 (length < 0)) by lia; reflexivity. }
  assert (Hsy : Sync p s2 = (inr tt, mkFS (files s2) (fails s2) (trace s2 ++ [EvSync p]))).
  { unfold Sync, bind, failing, getFiles, setFS; unfold s2; cbn [fails].
    rewrite Hy; reflexivity. }
  rewrite (bind_inr _ _ _ _ _ Htr), (bind_inr _ _ _ _ _ Hsy).
  unfold s2; cbn [files fails trace]; rewrite <- app_assoc; reflexivity.
Qed.

End FilesProofs.

Module FilesClaims.
Import Files FilesProofs.

(** C8 (counterexample): the pre-existing file ["d/a"] has size 0, not the
    declared 1000, yet [prepareFiles] succeeds (the file is truncated to 1000
    bytes) and asks for no hash check. *)
Lemma preexisting_empty_file_accepted :
  files fsEmptyA !! join ["d"; Name infoA] = Some 0 /\ Length infoA <> 0 /\
  fst (prepareFiles infoA "d" fsEmptyA) = inr (["d/a"%string], false).
Proof. vm_compute; split; [reflexivity | split; [discriminate | reflexivity]]. Qed.

(** C8 (amended): how a declared file [p] that already exists with [size]
    bytes when it is opened is handled, in the single-file layout and at any
    position of the multi-file loop (failures of [open] or [stat] themselves
    apart):
    - a nonzero size other than the declared length makes [openOrAllocate],
      and so [prepareFiles], fail with the size-mismatch error;
    - a size equal to the declared length is accepted as is with
      [exists = true], so [prepareFiles] asks for a hash check (the loop
      goes on with its flag set);
    - an empty file with a positive declared length is truncated to that
      length and synced, with [exists = false]: it does not ask for a hash
      check (the loop goes on with its flag unchanged). *)
Theorem preexisting_size_checked (s : FS) (p : string) (length size : Z)
    (Ho : fails s OpOpen p = false) (Hs : fails s OpStat p = false)
    (Hf : files s !! p = Some size) :
  (size <> 0 -> size <> length ->
     fst (openOrAllocate p length s) = inl (ErrSizeMismatch p length size) /\
     (forall info where_, single_file info where_ p length ->
        fst (prepareFiles info where_ s) = inl (ErrSizeMismatch p length size)) /\
     (forall info where_ s0 pre rest ps ch, multi_file_at info where_ s0 pre rest ps ch p length s ->
        fst (prepareFiles info where_ s0) = inl (ErrSizeMismatch p length size))) /\
  (size = length ->
     openOrAllocate p length s = (inr (p, true), s) /\
     (forall info where_, single_file info where_ p length ->
        prepareFiles info where_ s = (inr ([p], true), s)) /\
     (forall info where_ s0 pre rest ps ch, multi_file_at info where_ s0 pre rest ps ch p length s ->
        prepareFiles info where_ s0 =
          (r <- prepareMulti where_ (Name info) rest true;; ret (ps ++ p :: fst r, snd r)) s)) /\
  (size = 0 -> 0 < length -> fails s OpTruncate p = false -> fails s OpSync p = false ->
     let s' := mkFS (<[p := length]> (files s)) (fails s)
                    (trace s ++ [EvTruncate p length; EvSync p]) in
     openOrAllocate p length s = (inr (p, false), s') /\
     (forall info where_, single_file info where_ p length ->
        prepareFiles info where_ s = (inr ([p], false), s')) /\
     (forall info where_ s0 pre rest ps ch, multi_file_at info where_ s0 pre rest ps ch p length s ->
        prepareFiles info where_ s0 =
          (r <- prepareMulti where_ (Name info) rest ch;; ret (ps ++ p :: fst r, snd r)) s')).
Proof.
  split; [|split].
  - intros Hz Hne.
    pose proof (openOrAllocate_mismatch s p length size Ho Hs Hf Hz Hne) as Hr.
    split; [rewrite Hr; reflexivity|]; split.
    + intros info where_ (Hm & Hj & Hl).
      unfold prepareFiles; rewrite Hm; cbn [negb]; rewrite Hj, Hl.
      unfold bind; rewrite Hr; reflexivity.
    + intros info where_ s0 pre rest ps ch Hat.
      rewrite (prepareFiles_multi_at _ _ _ _ _ _ _ _ _ _ Hat), Hr; reflexivity.
  - intros <-.
    pose proof (openOrAllocate_exact s p size Ho Hs Hf) as Hr.
    split; [exact Hr|]; split.
    + intros info where_ (Hm & Hj & Hl).
      unfold prepareFiles; rewrite Hm; cbn [negb]; rewrite Hj, Hl.
      unfold bind; rewrite Hr; reflexivity.
    + intros info where_ s0 pre rest ps ch Hat.
      rewrite (prepareFiles_multi_at _ _ _ _ _ _ _ _ _ _ Hat), Hr, orb_true_r; reflexivity.
  - intros -> Hl Ht Hy s'.
    pose proof (openOrAllocate_existing_empty s p length Ho Hs Ht Hy Hf Hl) as Hr.
    split; [exact Hr|]; split.
    + intros info where_ (Hm & Hj & Hlen).
      unfold prepareFiles; rewrite Hm; cbn [negb]; rewrite Hj, Hlen.
      unfold bind; rewrite Hr; reflexivity.
    + intros info where_ s0 pre rest ps ch Hat.
      rewrite (prepareFiles_multi_at _ _ _ _ _ _ _ _ _ _ Hat), Hr, orb_false_r; reflexivity.
Qed.

Lemma preexisting_size_checked_witness :
  fst (prepareFiles infoA "d" fs900) = inl (ErrSizeMismatch "d/a" 1000 900) /\
  fst (prepareFiles infoTB "d" fsB9) = inl (ErrSizeMismatch "d/t/b" 4 9) /\
  files (snd (prepareFiles infoA "d" fsEmptyA)) !! "d/a"%string = Some 1000 /\
  fst (prepareFiles infoA "d" fsEmptyA) = inr (["d/a"%string], false).
Proof.
  split; [|split].
  - destruct (preexisting_size_checked fs900 "d/a" 1000 900 eq_refl eq_refl eq_refl)
      as [H _].
    destruct (H ltac:(discriminate) ltac:(discriminate)) as (_ & Hsingle & _).
    apply Hsingle; split; [reflexivity | split; vm_compute; reflexivity].
  - set (s1 := snd (prepareMulti "d" "t" [mkFileInfo 3 ["a"]] false fsB9)).
    set (sB := snd (MkdirAll (Dir "d/t/b") s1)).
    destruct (preexisting_size_checked sB "d/t/b" 4 9 ltac:(vm_compute; reflexivity)
                ltac:(vm_compute; reflexivity) ltac:(vm_compute; reflexivity)) as [H _].
    destruct (H ltac:(discriminate) ltac:(discriminate)) as (_ & _ & Hmulti).
    apply (Hmulti infoTB "d" fsB9 [mkFileInfo 3 ["a"]] [] ["d/t/a"%string] false).
    split; [reflexivity|].
    exists (mkFileInfo 4 ["b"]), s1.
    split; [reflexivity|]; split; [vm_compute; reflexivity|]; split; [reflexivity|].
    split; vm_compute; reflexivity.
  - destruct (preexisting_size_checked fsEmptyA "d/a" 1000 0 eq_refl eq_refl eq_refl)
      as (_ & _ & H).
    destruct (H eq_refl ltac:(lia) eq_refl eq_refl) as (_ & Hsingle & _).
    rewrite (Hsingle infoA "d"); [split; reflexivity|].
    split; [reflexivity | split; vm_compute; reflexivity].
Defined.

(** C9: a declared file whose path does not exist yet, with a positive
    declared length, is created, truncated to exactly that length and
    synced, and reported with [exists = false] (the single-file
    [prepareFiles] then asks for no hash check), when no system call fails. *)
Theorem new_file_allocated (s : FS) (p : string) (length : Z)
    (Hok : forall op, fails s op p = false)
    (Habs : files s !! p = None) (Hl : 0 < length) :
  exists s',
    openOrAllocate p length s = (inr (p, false), s') /\
    files s' !! p = Some length /\
    trace s' = trace s ++ [EvCreate p; EvTruncate p length; EvSync p] /\
    (forall info where_, MultiFile info = false -> join [where_; Name info] = p ->
       Length info = length -> fst (prepareFiles info where_ s) = inr ([p], false)).
Proof.
  destruct (openOrAllocate_empty s p length Hok) as (s' & Hr & Hf & Ht);
    [rewrite Habs; reflexivity | exact Hl |].
  exists s'; split; [exact Hr|]; split; [exact Hf|]; split.
  - rewrite Ht, Habs; reflexivity.
  - intros info where_ Hm Hp Hlen.
    rewrite (prepareFiles_single info where_ s Hm), Hp, Hlen, Hr; reflexivity.
Qed.

Lemma new_file_allocated_witness :
  exists s', openOrAllocate "d/a" 1000 fsNone = (inr ("d/a"%string, false), s') /\
             files s' !! "d/a"%string = Some 1000.
Proof.
  destruct (new_file_allocated fsNone "d/a" 1000) as (s' & H1 & H2 & _);
    [intros op; reflexivity | reflexivity | lia |].
  exists s'; split; assumption.
Defined.

(** C10: [openOrAllocate] tells files apart by their size alone: any file of
    size 0 (just created or already there) with a positive declared length
    is truncated and reported with [exists = false]; any file whose size
    equals its declared length (including one just created for a declared
    length 0) is reported with [exists = true], and the single-file
    [prepareFiles] then asks for a hash check. *)
Theorem exists_decided_by_size (s : FS) (p : string) (length : Z)
    (Hok : forall op, fails s op p = false) :
  (default 0 (files s !! p) = 0 -> 0 < length ->
     exists s', openOrAllocate p length s = (inr (p, false), s') /\
                files s' !! p = Some length) /\
  (default 0 (files s !! p) = length ->
     fst (openOrAllocate p length s) = inr (p, true) /\
     (forall info where_, MultiFile info = false -> join [where_; Name info] = p ->
        Length info = length -> fst (prepareFiles info where_ s) = inr ([p], true))).
Proof.
  split.
  - intros H0 Hl.
    destruct (openOrAllocate_empty s p length Hok H0 Hl) as (s' & Hr & Hf & _).
    exists s'; split; assumption.
  - intros Heq.
    assert (Hr : fst (openOrAllocate p length s) = inr (p, true)).
    { rewrite (openOrAllocate_sized s p length length (Hok OpOpen) (Hok OpStat) Heq)
        by (destruct (decide (length = 0)); auto).
      rewrite bool_decide_eq_false_2 by lia; reflexivity. }
    split; [exact Hr|].
    intros info where_ Hm Hp Hlen.
    rewrite (prepareFiles_single info where_ s Hm), Hp, Hlen, Hr; reflexivity.
Qed.

Lemma exists_decided_by_size_witness :
  (exists s', openOrAllocate "d/a" 1000 fsEmptyA = (inr ("d/a"%string, false), s') /\
              files s' !! "d/a"%string = Some 1000) /\
  fst (prepareFiles (mkInfo "a" false 0 []) "d" fsNone) = inr (["d/a"%string], true).
Proof.
  split.
  - apply (exists_decided_by_size fsEmptyA "d/a" 1000 (fun op => eq_refl)); [reflexivity | lia].
  - apply (exists_decided_by_size fsNone "d/a" 0 (fun op => eq_refl)); reflexivity.
Defined.

End FilesClaims.

(* ================================================================= *)
(** * Further properties of the code *)

Module BitfieldFacts.
Import Bitfield.

Lemma lookup_repeat_zero (k m : nat) (x : Z) : repeat 0 k !! m = Some x -> x = 0.
Proof.
  revert m; induction k as [|k IH]; intros m H; [discriminate|].
  destruct m; simpl in H; [injection H; auto | eapply IH; exact H].
Qed.

Lemma Test_New (n j : nat) : Test (New n) j = false.
Proof.
  unfold Test, byte_of, New; cbn [bytes].
  destruct (repeat 0 _ !! _) as [x|] eqn:Hx; simpl.
  - rewrite (lookup_repeat_zero _ _ _ Hx); apply Z.testbit_0_l.
  - apply Z.testbit_0_l.
Qed.

Lemma length_New (n : nat) : length (bytes (New n)) = ((n + 7) / 8)%nat.
Proof. apply repeat_length. Qed.

Lemma len_Set (b : t) (i : nat) : len (Set_ b i) = len b.
Proof. reflexivity. Qed.

Lemma length_Set (b : t) (i : nat) : length (bytes (Set_ b i)) = length (bytes b).
Proof. apply length_insert. Qed.

Lemma same_bit (i j : nat) :
  (i / 8 = j / 8)%nat -> Z.of_nat (7 - i mod 8) = Z.of_nat (7 - j mod 8) -> i = j.
Proof.
  intros Hd Hm.
  pose proof (Nat.div_mod_eq i 8); pose proof (Nat.div_mod_eq j 8).
  pose proof (Nat.mod_upper_bound i 8); pose proof (Nat.mod_upper_bound j 8).
  lia.
Qed.

(** Setting bit [i] sets exactly bit [i] (when byte [i / 8] exists). *)
Lemma Test_Set (b : t) (i j : nat) :
  (i / 8 < length (bytes b))%nat ->
  Test (Set_ b i) j = Test b j || bool_decide (i = j).
Proof.
  intros Hi; unfold Test, Set_; cbn [bytes].
  destruct (decide (i / 8 = j / 8)%nat) as [Heq|Hne].
  - unfold byte_of at 1; cbn [bytes].
    rewrite <- Heq, list_lookup_insert_eq by exact Hi; cbn [default].
    unfold id; rewrite Z.lor_spec; unfold mask; rewrite Z.shiftl_1_l, Z.pow2_bits_eqb by lia.
    unfold byte_of; rewrite Heq; f_equal.
    destruct (Z.eqb_spec (Z.of_nat (7 - i mod 8)) (Z.of_nat (7 - j mod 8))) as [E|E].
    + rewrite bool_decide_eq_true_2; [reflexivity|].
      apply same_bit; [exact Heq | exact E].
    + rewrite bool_decide_eq_false_2; [reflexivity|].
      intros ->; apply E; reflexivity.
  - unfold byte_of at 1; cbn [bytes].
    rewrite list_lookup_insert_ne by exact Hne.
    rewrite bool_decide_eq_false_2, orb_false_r; [reflexivity|].
    intros ->; apply Hne; reflexivity.
Qed.

End BitfieldFacts.

Module TransferFacts.
Import Transfer BitfieldFacts.

(** The sum [downloadedFrom] computes, over bits [i .. i+n-1]. *)
Lemma downloadedFrom_sum (bf : Bitfield.t) (L : list Z) (i n : nat) (sum : Z) :
  (i + n <= length L)%nat ->
  downloadedFrom bf L i n sum =
    Some (sum + foldr Z.add 0
      (map (fun j => if Bitfield.Test bf j then default 0 (L !! j) else 0) (seq i n))).
Proof.
  revert i sum; induction n as [|n IH]; intros i sum Hn; simpl; [f_equal; lia|].
  destruct (Bitfield.Test bf i).
  - destruct (lookup_lt_is_Some_2 L i ltac:(lia)) as [l Hl]; rewrite Hl.
    rewrite IH by lia; simpl; f_equal; lia.
  - rewrite IH by lia; f_equal; lia.
Qed.

Lemma sum_seq_ext (f g : nat -> Z) (k n : nat) :
  (forall j, (k <= j < k + n)%nat -> f j = g j) ->
  foldr Z.add 0 (map f (seq k n)) = foldr Z.add 0 (map g (seq k n)).
Proof.
  revert k; induction n as [|n IH]; intros k H; simpl; [reflexivity|].
  rewrite (H k) by lia; rewrite (IH (S k)); [reflexivity|]; intros j Hj; apply H; lia.
Qed.

Lemma sum_seq_point (f g : nat -> Z) (i k n : nat) :
  (forall j, j <> i -> f j = g j) -> (k <= i < k + n)%nat ->
  foldr Z.add 0 (map g (seq k n)) = foldr Z.add 0 (map f (seq k n)) + (g i - f i).
Proof.
  revert k; induction n as [|n IH]; intros k H Hi; [lia|]; simpl.
  destruct (decide (k = i)) as [->|Hne].
  - rewrite (sum_seq_ext f g (S i) n); [lia|].
    intros j Hj; apply H; lia.
  - rewrite (IH (S k)) by (auto; lia). rewrite (H k Hne); lia.
Qed.

Lemma Downloaded_New (n : nat) (L : list Z) : Downloaded (Bitfield.New n) L = Some 0.
Proof.
  unfold Downloaded; generalize 0%nat, 0.
  induction (Bitfield.len (Bitfield.New n)) as [|m IH]; intros i sum; simpl;
    [reflexivity|].
  rewrite Test_New; apply IH.
Qed.

Lemma sum_lookup_seq (L : list Z) :
  foldr Z.add 0 (map (fun j => default 0 (L !! j)) (seq 0 (length L))) = foldr Z.add 0 L.
Proof.
  induction L as [|x L IH]; [reflexivity|].
  cbn [length seq map foldr]; rewrite <- seq_shift, map_map, <- IH.
  f_equal; apply (f_equal (foldr Z.add 0)); apply map_ext; reflexivity.
Qed.

End TransferFacts.

Module TransferExtras.
Import Transfer BitfieldFacts TransferFacts.

(** X1: with a fresh bitfield ([bitfield.New]), [Downloaded] is 0 and [Left]
    the total length, whatever the pieces. *)
Theorem downloaded_fresh (n : nat) (L : list Z) (totalLength : Z) :
  Downloaded (Bitfield.New n) L = Some 0 /\
  Left totalLength (Bitfield.New n) L = Some totalLength.
Proof.
  split; [apply Downloaded_New|].
  unfold Left; rewrite Downloaded_New; f_equal; lia.
Qed.

(** X2: setting bit [i] of a bitfield with no more bits than pieces adds
    piece [i]'s length to [Downloaded] if the bit was unset, and nothing if
    it was already set. *)
Theorem downloaded_set (bf : Bitfield.t) (L : list Z) (i : nat)
    (Hlen : (Bitfield.len bf <= length L)%nat) (Hi : (i < Bitfield.len bf)%nat)
    (Hb : (i / 8 < length (Bitfield.bytes bf))%nat) :
  exists d,
    Downloaded bf L = Some d /\
    Downloaded (Bitfield.Set_ bf i) L
      = Some (d + if Bitfield.Test bf i then 0 else default 0 (L !! i)).
Proof.
  unfold Downloaded; rewrite len_Set.
  rewrite !downloadedFrom_sum by lia.
  eexists; split; [reflexivity|]; f_equal.
  rewrite (sum_seq_point
    (fun j => if Bitfield.Test bf j then default 0 (L !! j) else 0)
    (fun j => if Bitfield.Test (Bitfield.Set_ bf i) j then default 0 (L !! j) else 0)
    i 0 (Bitfield.len bf)); [| |lia].
  - rewrite (Test_Set bf i i Hb), bool_decide_eq_true_2, orb_true_r by reflexivity.
    destruct (Bitfield.Test bf i); lia.
  - intros j Hj; rewrite (Test_Set bf i j Hb), bool_decide_eq_false_2, orb_false_r
      by (intros ->; apply Hj; reflexivity); reflexivity.
Qed.

Lemma downloaded_set_witness :
  exists d, Downloaded bf_two [5; 7] = Some d /\
    Downloaded (Bitfield.Set_ bf_two 1) [5; 7] = Some (d + 7).
Proof.
  destruct (downloaded_set bf_two [5; 7] 1) as (d & H1 & H2);
    [vm_compute; lia | vm_compute; lia | vm_compute; lia |].
  exists d; split; [exact H1|]; rewrite H2; reflexivity.
Defined.

(** X3: once every bit is set ([All]) and there is one bit per piece,
    [Downloaded] is the sum of all piece lengths and [Left] the total length
    minus that sum. *)
Theorem downloaded_all (bf : Bitfield.t) (L : list Z) (totalLength : Z)
    (Hall : Bitfield.All bf = true) (Hlen : Bitfield.len bf = length L) :
  Downloaded bf L = Some (foldr Z.add 0 L) /\
  Left totalLength bf L = Some (totalLength - foldr Z.add 0 L).
Proof.
  assert (HD : Downloaded bf L = Some (foldr Z.add 0 L)).
  { unfold Downloaded; rewrite downloadedFrom_sum by lia; f_equal.
    rewrite <- (sum_lookup_seq L), <- Hlen.
    rewrite (sum_seq_ext _ (fun j => default 0 (L !! j))); [lia|].
    intros j Hj; unfold Bitfield.All in Hall.
    rewrite forallb_forall in Hall.
    rewrite Hall; [reflexivity|]; apply in_seq; lia. }
  split; [exact HD|]; unfold Left; rewrite HD; reflexivity.
Qed.

Lemma downloaded_all_witness :
  Downloaded bf_full [10; 20] = Some 30 /\ Left 100 bf_full [10; 20] = Some 70.
Proof. apply (downloaded_all bf_full [10; 20] 100); vm_compute; reflexivity. Defined.

(** X4: over any sequence of loop inputs, the peer lists sent to the
    downloader are exactly those of the successful announce responses, in
    order; each response is logged (its error, or its seeder and leecher
    counts), and nothing else is logged. *)
Theorem announce_forwarding (t : TState) (ins : list Input) :
  sentPeers (runLoop t ins) =
    sentPeers t ++ flat_map (fun i => match i with
                                      | FromAnnounceC (AnnounceOK _ _ ps) => [ps]
                                      | _ => []
                                      end) ins /\
  logs (runLoop t ins) =
    logs t ++ flat_map (fun i => match i with
                                 | FromAnnounceC (AnnounceError m) => [LogErr m]
                                 | FromAnnounceC (AnnounceOK se le _) => [LogAnnounce se le]
                                 | _ => []
                                 end) ins.
Proof.
  revert t; induction ins as [|i ins IH]; intros t; simpl; [rewrite !app_nil_r; auto|].
  unfold runLoop in *; simpl; destruct (IH (loopStep t i)) as [H1 H2].
  rewrite H1, H2; destruct i as [[]| | |]; simpl; rewrite <- ?app_assoc; auto.
Qed.

(** X5: the peers recorded for piece [k] after the loop are those it had
    before, followed by every peer reported for [k] by a have notification,
    in arrival order; no other piece's list changes for it. *)
Theorem have_recorded (t : TState) (ins : list Input) (k : nat) :
  piecePeers (runLoop t ins) !! k =
    (fun ps => ps ++ flat_map (fun i => match i with
                                        | FromHaveC k' p => if decide (k' = k) then [p] else []
                                        | _ => []
                                        end) ins) <$> (piecePeers t !! k).
Proof.
  revert t; induction ins as [|i ins IH]; intros t; simpl.
  - destruct (piecePeers t !! k); simpl; rewrite ?app_nil_r; reflexivity.
  - unfold runLoop in *; simpl; rewrite IH.
    destruct i as [[]|k' p| |]; simpl; try reflexivity.
    destruct (decide (k' = k)) as [->|Hne].
    + rewrite list_lookup_alter_eq.
      destruct (piecePeers t !! k); simpl; rewrite <- ?app_assoc; reflexivity.
    + rewrite list_lookup_alter_ne by exact Hne; reflexivity.
Qed.

End TransferExtras.

Module InitFacts.
Import Files TransferInit BitfieldFacts.

Lemma hashLoop_ok (hc : nat -> string + bool) (k n : nat) (bf : Bitfield.t) :
  (forall j, (k <= j < k + n)%nat -> exists ok, hc j = inr ok) ->
  (forall j, (k <= j < k + n)%nat -> (j / 8 < length (Bitfield.bytes bf))%nat) ->
  exists bf', hashLoop hc (seq k n) bf = inr bf' /\
    Bitfield.len bf' = Bitfield.len bf /\
    (forall j, Bitfield.Test bf' j =
       Bitfield.Test bf j || (bool_decide (k <= j < k + n)%nat && bool_decide (hc j = inr true))).
Proof.
  revert k bf; induction n as [|n IH]; intros k bf Hok Hb.
  - exists bf; split; [reflexivity|]; split; [reflexivity|].
    intros j; rewrite (bool_decide_eq_false_2 (k <= j < k + 0)%nat) by lia.
    rewrite orb_false_r; reflexivity.
  - destruct (Hok k ltac:(lia)) as [ok Hk]; simpl; rewrite Hk.
    set (bf1 := if ok then Bitfield.Set_ bf k else bf).
    assert (Hl1 : length (Bitfield.bytes bf1) = length (Bitfield.bytes bf))
      by (unfold bf1; destruct ok; [apply length_Set|reflexivity]).
    destruct (IH (S k) bf1) as (bf' & Hr & Hlen & Ht).
    + intros j Hj; apply Hok; lia.
    + intros j Hj; rewrite Hl1; apply Hb; lia.
    + exists bf'; split; [exact Hr|]; split.
      { rewrite Hlen; unfold bf1; destruct ok; reflexivity. }
      intros j; rewrite Ht.
      assert (Hbf1 : Bitfield.Test bf1 j =
                     Bitfield.Test bf j || (ok && bool_decide (k = j))).
      { unfold bf1; destruct ok; simpl.
        - apply Test_Set; apply Hb; lia.
        - rewrite orb_false_r; reflexivity. }
      rewrite Hbf1.
      destruct (decide (k = j)) as [->|Hne].
      * rewrite (bool_decide_eq_false_2 (S j <= j < S j + n)%nat) by lia.
        rewrite (bool_decide_eq_true_2 (j <= j < j + S n)%nat) by lia.
        rewrite bool_decide_eq_true_2 by reflexivity.
        rewrite Hk; destruct ok;
          [rewrite bool_decide_eq_true_2 by reflexivity
          |rewrite bool_decide_eq_false_2 by discriminate]; simpl;
          rewrite ?orb_false_r; reflexivity.
      * rewrite (bool_decide_eq_false_2 (k = j)) by exact Hne; rewrite andb_false_r, orb_false_r.
        destruct (decide (S k <= j < S k + n)%nat).
        -- rewrite (bool_decide_eq_true_2 (S k <= j < S k + n)%nat) by assumption.
           rewrite (bool_decide_eq_true_2 (k <= j < k + S n)%nat) by lia; reflexivity.
        -- rewrite (bool_decide_eq_false_2 (S k <= j < S k + n)%nat) by assumption.
           rewrite (bool_decide_eq_false_2 (k <= j < k + S n)%nat) by lia; reflexivity.
Qed.

Lemma hashLoop_err (hc : nat -> string + bool) (k n p : nat) (e : string) (bf : Bitfield.t) :
  hc p = inl e -> (k <= p < k + n)%nat ->
  (forall q, (k <= q < p)%nat -> exists ok, hc q = inr ok) ->
  hashLoop hc (seq k n) bf = inl e.
Proof.
  revert k bf; induction n as [|n IH]; intros k bf He Hp Hok; [lia|]; simpl.
  destruct (decide (k = p)) as [->|Hne]; [rewrite He; reflexivity|].
  destruct (Hok k ltac:(lia)) as [ok Hk]; rewrite Hk.
  apply IH; [exact He | lia | intros q Hq; apply Hok; lia].
Qed.

Lemma div8_lt (j n : nat) : (j < n)%nat -> (j / 8 < (n + 7) / 8)%nat.
Proof.
  intros H.
  assert (E : ((j + 1 * 8) / 8 = j / 8 + 1)%nat) by (apply Nat.div_add; lia).
  assert (L : ((j + 1 * 8) / 8 <= (n + 7) / 8)%nat) by (apply Nat.Div0.div_le_mono; lia).
  lia.
Qed.

End InitFacts.

Module InitExtras.
Import Files TransferInit BitfieldFacts InitFacts.

(** X6: the bitfield a new transfer starts with.  When [prepareFiles] found
    no existing file, it is all unset and no hash check runs.  When some file
    existed and every piece's hash check completes, it has one bit per piece,
    set exactly for the pieces whose data matched. *)
Theorem new_transfer_bitfield (info : Info) (where_ : string) (npieces : nat)
    (hc : nat -> string + bool) (s s' : FS) (files : list string) (checkHash : bool)
    (Hprep : prepareFiles info where_ s = (inr (files, checkHash), s')) :
  (checkHash = false ->
     newTransfer None info where_ npieces hc s
       = (inr (mkCreated files (Bitfield.New npieces) (logName (Name info))), s')) /\
  (checkHash = true ->
     (forall j, (j < npieces)%nat -> exists ok, hc j = inr ok) ->
     exists bf,
       newTransfer None info where_ npieces hc s
         = (inr (mkCreated files bf (logName (Name info))), s') /\
       Bitfield.len bf = npieces /\
       (forall j, Bitfield.Test bf j = bool_decide (j < npieces)%nat && bool_decide (hc j = inr true))).
Proof.
  unfold newTransfer; rewrite Hprep; split.
  - intros ->; reflexivity.
  - intros -> Hok.
    destruct (hashLoop_ok hc 0 npieces (Bitfield.New npieces)) as (bf & Hr & Hl & Ht).
    + intros j Hj; apply Hok; lia.
    + intros j Hj; rewrite length_New; apply div8_lt; lia.
    + exists bf; rewrite Hr; split; [reflexivity|]; split; [exact Hl|].
      intros j; rewrite Ht, Test_New; simpl.
      destruct (decide (j < npieces)%nat).
      * rewrite (bool_decide_eq_true_2 (0 <= j < 0 + npieces)%nat) by lia.
        rewrite (bool_decide_eq_true_2 (j < npieces)%nat) by lia; reflexivity.
      * rewrite (bool_decide_eq_false_2 (0 <= j < 0 + npieces)%nat) by lia.
        rewrite (bool_decide_eq_false_2 (j < npieces)%nat) by lia; reflexivity.
Qed.

Lemma new_transfer_bitfield_witness :
  exists bf,
    newTransfer None infoA "d" 4 checkEven fsA1000
      = (inr (mkCreated ["d/a"%string] bf (logName "a")), fsA1000) /\
    Bitfield.len bf = 4%nat.
Proof.
  destruct (new_transfer_bitfield infoA "d" 4 checkEven fsA1000 fsA1000 ["d/a"%string] true)
    as [_ H]; [vm_compute; reflexivity|].
  assert (Hok : forall j, (j < 4)%nat -> exists ok, checkEven j = inr ok)
    by (intros j _; exists (Nat.even j); reflexivity).
  destruct (H eq_refl Hok) as (bf & H1 & H2 & _).
  exists bf; split; assumption.
Defined.

(** X7: how creating a transfer fails.  A [tracker.New] error aborts before
    any file is opened (the file system is untouched); a [prepareFiles] error
    is returned as is; and when existing data must be checked, the first
    piece whose hash check errs aborts the creation with that error. *)
Theorem new_transfer_errors (info : Info) (where_ : string) (npieces : nat)
    (hc : nat -> string + bool) (s : FS) :
  (forall msg, newTransfer (Some msg) info where_ npieces hc s = (inl (TrackerErr msg), s)) /\
  (forall e s', prepareFiles info where_ s = (inl e, s') ->
     newTransfer None info where_ npieces hc s = (inl (FileErr e), s')) /\
  (forall files s' p e, prepareFiles info where_ s = (inr (files, true), s') ->
     (p < npieces)%nat -> hc p = inl e ->
     (forall q, (q < p)%nat -> exists ok, hc q = inr ok) ->
     newTransfer None info where_ npieces hc s = (inl (HashErr e), s')).
Proof.
  split; [intros msg; reflexivity|]; split.
  - intros e s' Hp; unfold newTransfer; rewrite Hp; reflexivity.
  - intros files s' p e Hp Hlt He Hok; unfold newTransfer; rewrite Hp.
    rewrite (hashLoop_err hc 0 npieces p e _ He); [reflexivity | lia | intros q Hq; apply Hok; lia].
Qed.

Lemma new_transfer_errors_witness :
  newTransfer None infoA "d" 4 checkFailsAt2 fsA1000 = (inl (HashErr "read error"), fsA1000).
Proof.
  destruct (new_transfer_errors infoA "d" 4 checkFailsAt2 fsA1000) as (_ & _ & H).
  apply (H ["d/a"%string] fsA1000 2%nat); [vm_compute; reflexivity | lia | reflexivity |].
  intros q Hq; exists true; unfold checkFailsAt2; rewrite decide_False by lia; reflexivity.
Defined.

End InitExtras.

Module ConnectExtras.
Import Transfer.

(** X8: an outbound attempt runs a peer session exactly when [Dial] reaches
    a peer other than ourselves; the session is then followed by closing the
    connection, as the last event.  Any other failure of [Dial] (not a
    self-connection) ends with an error-level log of it. *)
Theorem connect_outcomes (cfg : Config) (infoHash peerID : list Z) (remote : DialRemote) :
  (In Serve (connect cfg infoHash peerID remote) <->
     exists rpid ext, remote = RemotePeer rpid ext /\ rpid <> peerID) /\
  (In Serve (connect cfg infoHash peerID remote) ->
     exists pre, connect cfg infoHash peerID remote = pre ++ [Serve; ConnClose]) /\
  ((forall ext, remote <> RemotePeer peerID ext) ->
   ~ In Serve (connect cfg infoHash peerID remote) ->
     exists pre e, e <> ErrOwnConnection /\
       connect cfg infoHash peerID remote = pre ++ [LogError e]).
Proof.
  destruct remote as [| |rpid ext]; unfold connect, Dial.
  - simpl; split; [split; [intros [H|[]]; discriminate|intros (? & ? & H & _); discriminate]|].
    split; [intros [H|[]]; discriminate|].
    intros _ _; exists [], ErrConnect; split; [congruence|reflexivity].
  - simpl; split; [split; [intros [H|[H|[]]]; discriminate|intros (? & ? & H & _); discriminate]|].
    split; [intros [H|[H|[]]]; discriminate|].
    intros _ _; exists [DialConnClose], ErrHandshake; split; [congruence|reflexivity].
  - destruct (decide (rpid = peerID)) as [->|Hne]; simpl.
    + split; [split; [intros [H|[H|[]]]; discriminate|intros (? & ? & H & Hn);
                      injection H as -> _; contradiction]|].
      split; [intros [H|[H|[]]]; discriminate|].
      intros Hr _; exfalso; apply (Hr ext); reflexivity.
    + split; [split; [intros _; exists rpid, ext; auto | intros _; right; right; left; reflexivity]|].
      split; [intros _; exists [LogConnected; LogExtensions ext]; reflexivity|].
      intros _ Hs; exfalso; apply Hs; right; right; left; reflexivity.
Qed.

End ConnectExtras.

Module HandlerExtras.
Import Handler.

(** X9: [Handler.Run] leaves the peer id registry as it found it, whatever
    the remote side does and however the session ends: a failed handshake or
    a duplicate never changes it, and a registered id is removed again. *)
Theorem handler_registry_restored (h : Handler) (reg : gset PeerID) (r : Remote)
    (e : SessionEnd) :
  (Run h reg r e).1.2 = reg.
Proof.
  unfold Run.
  destruct (Accept _ _ _ _ _ r) as [err|[[c pext] pid]]; [reflexivity|].
  unfold Add; destruct (decide (pid ∈ reg)) as [Hin|Hin]; [reflexivity|].
  simpl; unfold Remove; set_solver.
Qed.

(** X10: [Handler.Run] runs a peer session only for a remote that completed
    the hello with the content this handler serves (an encrypted hello keyed
    by the handler's secret-key hash, or a plain one carrying its info hash)
    and whose peer id was not registered yet. *)
Theorem handler_session_guard (h : Handler) (reg : gset PeerID) (r : Remote)
    (e : SessionEnd) (pid : PeerID) (ext : Bitfield.t) :
  In (PeerRun pid ext) (Run h reg r e).1.1 ->
  (pid ∉ reg) /\
  exists enc key pext, r = RemoteHello enc key pext pid /\
    (if enc then key = sKeyHash h else key = infoHash h).
Proof.
  unfold Run, Accept.
  destruct r as [|[] key pext rpid]; simpl.
  - intros [H|[H|[]]]; discriminate.
  - unfold getSKey; destruct (decide (key = sKeyHash h)) as [Hk|Hk]; simpl.
    + unfold Add; destruct (decide (rpid ∈ reg)) as [Hin|Hin]; simpl.
      * intros [H|[H|[H|[]]]]; discriminate.
      * intros [H|[H|[H|[H|[]]]]]; try discriminate.
        injection H as -> _; split; [exact Hin|]; exists true, key, pext; auto.
    + intros [H|[H|[]]]; discriminate.
  - unfold checkInfoHash; destruct (bool_decide_reflect (key = infoHash h)) as [Hk|Hk]; simpl.
    + unfold Add; destruct (decide (rpid ∈ reg)) as [Hin|Hin]; simpl.
      * intros [H|[H|[H|[]]]]; discriminate.
      * intros [H|[H|[H|[H|[]]]]]; try discriminate.
        injection H as -> _; split; [exact Hin|]; exists false, key, pext; auto.
    + intros [H|[H|[]]]; discriminate.
Qed.

Lemma handler_session_guard_witness :
  ([9] ∉ (∅ : gset PeerID)) /\
  exists enc key pext, plainHello = RemoteHello enc key pext [9] /\
    (if enc then key = sKeyHash h0 else key = infoHash h0).
Proof.
  apply (handler_session_guard h0 ∅ plainHello SessionReturns [9]
           (Bitfield.And ourbf (Bitfield.NewBytes (repeat 0 8) 64))).
  vm_compute; right; right; left; reflexivity.
Defined.

End HandlerExtras.

Module DialerExtras.
Import Dialer DialerProofs.

(** X11: with all 40 slots held, [Run] at its outer [select] cannot acquire
    another one: no step starts a new dial attempt until a worker's on-finish
    callback has released a slot. *)
Theorem dial_blocks_when_full (s s' : state) (H : reachable s) (Hloc : loc s = AtOuter)
    (Hfull : (acquired s - released s = maxDial)%nat) (Hst : step s s') :
  acquired s' = acquired s /\ spawned s' = spawned s.
Proof.
  destruct (reachable_inv s H) as (H1 & H2 & _).
  inversion Hst; subst; simpl in *; try (split; reflexivity); try discriminate.
  unfold maxDial in *; lia.
Qed.

Lemma reachable_n_workers (n : nat) :
  (n <= maxDial)%nat -> reachable (mkState n n 0 AtOuter false n 0 n).
Proof.
  induction n as [|n IH]; intros Hn; [apply steps_refl|].
  eapply steps_next; [eapply steps_next; [apply IH; lia|] |].
  - apply S_acquire; lia.
  - apply S_dial.
Qed.

Lemma dial_blocks_when_full_witness :
  reachable full /\
  acquired (mkState 40 40 0 AtOuter true 40 0 40) = acquired full.
Proof.
  assert (Hr : reachable full) by (apply reachable_n_workers; unfold maxDial; lia).
  split; [exact Hr|].
  apply (dial_blocks_when_full full (mkState 40 40 0 AtOuter true 40 0 40) Hr eq_refl eq_refl).
  apply S_close_stop.
Defined.

(** X12: the cap is reached: [Run] can have 40 dial workers running at once. *)
Theorem dial_cap_reachable :
  exists s, reachable s /\ running s = maxDial /\ (acquired s - released s = maxDial)%nat.
Proof.
  exists full; split.
  - apply reachable_n_workers; unfold maxDial; lia.
  - split; reflexivity.
Qed.

End DialerExtras.

Module FilesExtras.
Import Files FilesProofs.

Lemma OpenFile_result (s s1 : FS) (p : string) (r : Error + string) :
  OpenFile p s = (r, s1) -> (r = inl (ErrIO OpOpen p) /\ s1 = s) \/ r = inr p.
Proof.
  unfold OpenFile, bind, failing, getFiles, setFS, ret, throw.
  destruct (fails s OpOpen p); [intros H; injection H as <- <-; left; auto|].
  destruct (files s !! p); intros H; injection H as <- _; right; reflexivity.
Qed.

(** X14: when [openOrAllocate] fails, either opening the file failed (and
    nothing changed), or the file it had opened is closed as the last
    effect, by its deferred [f.Close()]. *)
Theorem openOrAllocate_failure_closes (s s' : FS) (p : string) (length : Z) (e : Error)
    (H : openOrAllocate p length s = (inl e, s')) :
  (e = ErrIO OpOpen p /\ s' = s) \/ exists pre, trace s' = pre ++ [EvClose p].
Proof.
  unfold openOrAllocate in H; unfold bind at 1 in H.
  destruct (OpenFile p s) as [r s1] eqn:Ho.
  destruct (OpenFile_result s s1 p r Ho) as [[-> ->] | ->].
  - injection H as <- <-; left; auto.
  - right; unfold closeOnError in H.
    destruct (bind _ _ s1) as [[e'|a] s2]; [|discriminate].
    injection H as <- <-; exists (trace s2); reflexivity.
Qed.

Lemma openOrAllocate_failure_closes_witness :
  exists pre, trace (snd (openOrAllocate "d/a" 5 fsFailStat)) = pre ++ [EvClose "d/a"].
Proof.
  destruct (openOrAllocate_failure_closes fsFailStat (snd (openOrAllocate "d/a" 5 fsFailStat))
              "d/a" 5 (ErrIO OpStat "d/a")) as [[Hc _]|Hc];
    [vm_compute; reflexivity | discriminate | exact Hc].
Defined.


Section Fresh.
Variable s : FS.
Hypothesis Hnf : forall op q, fails s op q = false.

Lemma MkdirAll_nofail (d : string) :
  (forall q, under q d = true -> files s !! q = None) ->
  MkdirAll d s = (inr tt, mkFS (files s) (fails s) (trace s ++ [EvMkdirAll d])).
Proof.
  intros Hd; unfold MkdirAll, bind, failing, getFiles, setFS, throw.
  rewrite Hnf; cbn [orb].
  destruct (existsb _ _) eqn:E; [|reflexivity].
  exfalso; apply existsb_exists in E as ([f z] & Hin & Hu); cbn in Hu.
  apply list_elem_of_In, elem_of_map_to_list in Hin.
  rewrite (Hd f Hu) in Hin; discriminate.
Qed.

Lemma openOrAllocate_fresh (p : string) (length : Z) :
  files s !! p = None -> 0 < length ->
  exists s', openOrAllocate p length s = (inr (p, false), s') /\
    fails s' = fails s /\ files s' = <[p := length]> (files s).
Proof.
  intros Hp Hl.
  set (s1 := mkFS (<[p := 0]> (files s)) (fails s) (trace s ++ [EvCreate p])).
  set (s2 := mkFS (<[p := length]> (files s1)) (fails s1) (trace s1 ++ [EvTruncate p length])).
  set (s3 := mkFS (files s2) (fails s2) (trace s2 ++ [EvSync p])).
  assert (Ho : OpenFile p s = (inr p, s1)).
  { unfold OpenFile, bind, failing, getFiles, setFS, ret; rewrite Hnf, Hp; reflexivity. }
  assert (Hs : Stat p s1 = (inr 0, s1)).
  { unfold Stat, bind, failing, getFiles, ret; unfold s1; cbn [fails files].
    rewrite Hnf; cbn [files]; rewrite lookup_insert_eq; reflexivity. }
  assert (Ht : Truncate p length s1 = (inr tt, s2)).
  { unfold Truncate, bind, failing, getFiles, setFS; unfold s1; cbn [fails].
    rewrite Hnf, (bool_decide_eq_false_2 (length < 0)) by lia; reflexivity. }
  assert (Hy : Sync p s2 = (inr tt, s3)).
  { unfold Sync, bind, failing, getFiles, setFS; unfold s2, s1; cbn [fails].
    rewrite Hnf; reflexivity. }
  exists s3; split; [|split; [reflexivity|]].
  - unfold openOrAllocate; rewrite (bind_inr _ _ _ _ _ Ho).
    unfold closeOnError; rewrite (bind_inr _ _ _ _ _ Hs).
    rewrite (bool_decide_eq_true_2 (0 = 0)) by reflexivity.
    rewrite (bool_decide_eq_true_2 (length <> 0)) by lia; cbn [andb].
    rewrite (bind_inr _ _ _ _ _ Ht), (bind_inr _ _ _ _ _ Hy); reflexivity.
  - unfold s3, s2, s1; cbn [files]; apply insert_insert_eq.
Qed.
End Fresh.

Lemma prepareMulti_fresh (where_ name : string) (fis : list FileInfo) :
  forall (s : FS) (ch : bool),
  (forall op q, fails s op q = false) ->
  Forall (fun fi => 0 < fLength fi) fis ->
  NoDup (map (fpath where_ name) fis) ->
  (forall fi fi', fi ∈ fis -> fi' ∈ fis ->
     under (fpath where_ name fi) (Dir (fpath where_ name fi')) = false) ->
  (forall fi, fi ∈ fis -> files s !! fpath where_ name fi = None) ->
  (forall fi q, fi ∈ fis -> under q (Dir (fpath where_ name fi)) = true -> files s !! q = None) ->
  exists s', prepareMulti where_ name fis ch s = (inr (map (fpath where_ name) fis, ch), s') /\
    fails s' = fails s /\
    (forall q, q ∉ map (fpath where_ name) fis -> files s' !! q = files s !! q) /\
    Forall (fun fi => files s' !! fpath where_ name fi = Some (fLength fi)) fis.
Proof.
  induction fis as [|fi rest IH]; intros s ch Hnf Hpos Hnd Hsep Habs Hdirs.
  - exists s; repeat split; auto.
  - inversion Hpos as [|? ? Hp Hpos']; subst.
    inversion Hnd as [|? ? Hnin Hnd']; subst.
    assert (Hhere : fi ∈ fi :: rest) by apply list_elem_of_here.
    assert (Hthere : forall fi', fi' ∈ rest -> fi' ∈ fi :: rest)
      by (intros; apply list_elem_of_further; assumption).
    cbn [prepareMulti]; unfold bind at 1; fold (fpath where_ name fi).
    rewrite MkdirAll_nofail by (exact Hnf || exact (fun q => Hdirs fi q Hhere)).
    set (s0 := mkFS (files s) (fails s) (trace s ++ _)).
    destruct (openOrAllocate_fresh s0 Hnf (fpath where_ name fi) (fLength fi) (Habs fi Hhere) Hp)
      as (s1 & Ho & Hf1 & Hfl1).
    unfold bind at 1; rewrite Ho; cbn [fst snd].
    assert (Hnf1 : forall op q, fails s1 op q = false) by (intros; rewrite Hf1; apply Hnf).
    assert (Habs1 : forall fi', fi' ∈ rest -> files s1 !! fpath where_ name fi' = None).
    { intros fi' Hin; rewrite Hfl1, lookup_insert_ne.
      - exact (Habs fi' (Hthere fi' Hin)).
      - intros E; apply Hnin; rewrite E; apply list_elem_of_In, in_map, list_elem_of_In; exact Hin. }
    assert (Hdirs1 : forall fi' q, fi' ∈ rest -> under q (Dir (fpath where_ name fi')) = true ->
                                   files s1 !! q = None).
    { intros fi' q Hin Hu; rewrite Hfl1, lookup_insert_ne.
      - exact (Hdirs fi' q (Hthere fi' Hin) Hu).
      - intros <-; rewrite (Hsep fi fi' Hhere (Hthere fi' Hin)) in Hu; discriminate. }
    destruct (IH s1 (ch || false) Hnf1 Hpos' Hnd'
                (fun a b Ha Hb => Hsep a b (Hthere a Ha) (Hthere b Hb)) Habs1 Hdirs1)
      as (s2 & Hr & Hf2 & Hout & Hin2).
    unfold bind; rewrite Hr; unfold ret; rewrite orb_false_r.
    exists s2; split; [reflexivity|]; split; [rewrite Hf2, Hf1; reflexivity|]; split.
    + intros q Hq. rewrite Hout by (intros H; apply Hq; apply list_elem_of_further; exact H).
      rewrite Hfl1, lookup_insert_ne; [reflexivity|].
      intros E; apply Hq; rewrite <- E; apply list_elem_of_here.
    + constructor; [|exact Hin2].
      rewrite Hout by exact Hnin.
      rewrite Hfl1; apply lookup_insert_eq.
Qed.

(** X15: downloading a multi-file torrent whose name and file paths are made
    of plain names, into a place where none of its files exists yet, when no
    system call fails by itself.  Its cleaned paths must be distinct, no
    file may stand where a directory is needed (neither a declared file nor
    an existing one at the directory of a declared file or above it).  Then
    [prepareFiles] succeeds, returns the paths in order, asks for no hash
    check, creates every file at its declared length and changes no other
    file. *)
Theorem fresh_multi_file_download (info : Info) (where_ : string) (s : FS)
    (Hmulti : MultiFile info = true)
    (Hnf : forall op q, fails s op q = false)
    (Hplain : Forall (fun fi => forallb plain (Name info :: fPath fi) = true) (InfoFiles info))
    (Hpos : Forall (fun fi => 0 < fLength fi) (InfoFiles info))
    (Hnd : NoDup (map (fpath where_ (Name info)) (InfoFiles info)))
    (Hsep : Forall (fun fi => Forall (fun fi' =>
              under (fpath where_ (Name info) fi) (Dir (fpath where_ (Name info) fi')) = false)
              (InfoFiles info)) (InfoFiles info))
    (Habs : Forall (fun fi => files s !! fpath where_ (Name info) fi = None /\
              forall q, under q (Dir (fpath where_ (Name info) fi)) = true -> files s !! q = None)
              (InfoFiles info)) :
  exists s', prepareFiles info where_ s =
      (inr (map (fpath where_ (Name info)) (InfoFiles info), false), s') /\
    Forall (fun fi => files s' !! fpath where_ (Name info) fi = Some (fLength fi)) (InfoFiles info) /\
    (forall q, q ∉ map (fpath where_ (Name info)) (InfoFiles info) -> files s' !! q = files s !! q).
Proof.
  unfold prepareFiles; rewrite Hmulti; cbn [negb].
  rewrite Forall_forall in Hsep, Habs.
  destruct (prepareMulti_fresh where_ (Name info) (InfoFiles info) s false Hnf Hpos Hnd
              (fun a b Ha Hb => proj1 (Forall_forall _ _) (Hsep a Ha) b Hb)
              (fun a Ha => proj1 (Habs a Ha))
              (fun a q Ha => proj2 (Habs a Ha) q))
    as (s' & H1 & _ & H2 & H3).
  exists s'; auto.
Qed.

Lemma fresh_multi_file_download_witness :
  exists s', prepareFiles infoAB "d" fsNone = (inr (["d/t/a"; "d/t/sub/b"]%string, false), s') /\
    files s' !! "d/t/sub/b"%string = Some 4.
Proof.
  destruct (fresh_multi_file_download infoAB "d" fsNone eq_refl (fun _ _ => eq_refl))
    as (s' & H1 & H2 & _).
  - repeat constructor.
  - repeat constructor; vm_compute; reflexivity.
  - apply (bool_decide_unpack _); vm_compute; reflexivity.
  - repeat constructor.
  - repeat constructor; intros; apply lookup_empty.
  - exists s'; split; [exact H1|]. inversion H2 as [|? ? _ H4]; inversion H4; assumption.
Defined.

End FilesExtras.
